(** * Serialization: fixed-length arrays, byte splitting and the HDLC frame

    A shallow embedding of [Array.h] (namespaces [RangedArray] and
    [ByteArray]) and of the frame example [HDLC.cc], with the properties
    of the codec stated over it.

    Conventions of the embedding.
    - [std::array<T, N>] is a [list T] of length [N].
    - A [std::index_sequence<I...>] is the [list nat] of its indices and
      [std::make_index_sequence<n>] is [seq 0 n]; a pack expansion
      [{e(I)...}] is a map over that list, evaluated left to right.
    - Integers are mathematical integers ([Z]) together with their C++
      type; conversions wrap around in two's complement, a left shift
      keeps the low bits of the promoted type and a right shift of a
      negative value copies the sign bit, as GCC and Clang define them.
    - [&arr.front()] only forms a pointer; elements are read by
      subscripting.
    - Every operation returns a [result]: a value, undefined behaviour at
      run time (a read outside the object an iterator points into, a shift
      by the full width of its operand), or rejection when the program is
      built (a failed [static_assert], no viable overload). *)

From Stdlib Require Import ZArith String.
From stdpp Require Import base option list.

Local Open Scope Z_scope.

(** ** Outcomes *)

Inductive result (A : Type) : Type :=
  | Ok (a : A)
  | Undefined
  | IllFormed (msg : string).

Arguments Ok {A} a.
Arguments Undefined {A}.
Arguments IllFormed {A} msg.

#[global] Instance result_ret : MRet result := λ A a, Ok a.
#[global] Instance result_bind : MBind result := λ A B f m,
  match m with
  | Ok a => f a
  | Undefined => Undefined
  | IllFormed msg => IllFormed msg
  end.

(** ** Iterators *)

(** [first[i]]: the element [i] places after the iterator. *)
Class Subscript (It T : Type) := subscript : It → nat → result T.

(** Random access: [last - first] and [first + n]. *)
Class RandomAccess (It : Type) := {
  it_diff : It → It → Z;
  it_plus : It → nat → It
}.

(** A pointer into an array object: the object and a position in it. *)
Record pointer (T : Type) := Pointer { p_object : list T; p_pos : nat }.
Arguments Pointer {T} p_object p_pos.
Arguments p_object {T} p.
Arguments p_pos {T} p.

(** A [std::reverse_iterator]: [r_base] elements of the object lie before
    its base, and dereferencing yields the element just before the base. *)
Record reverse_iterator (T : Type) := ReverseIterator { r_object : list T; r_base : nat }.
Arguments ReverseIterator {T} r_object r_base.
Arguments r_object {T} r.
Arguments r_base {T} r.

Definition lookup_result {T} (l : list T) (i : nat) : result T :=
  match l !! i with
  | Some x => Ok x
  | None => Undefined
  end.

#[global] Instance pointer_subscript T : Subscript (pointer T) T :=
  λ p i, lookup_result (p_object p) (p_pos p + i)%nat.

#[global] Instance pointer_random_access T : RandomAccess (pointer T) := {
  it_diff last first := Z.of_nat (p_pos last) - Z.of_nat (p_pos first);
  it_plus p n := Pointer (p_object p) (p_pos p + n)%nat
}.

#[global] Instance reverse_subscript T : Subscript (reverse_iterator T) T :=
  λ r i, if (i <? r_base r)%nat
         then lookup_result (r_object r) (r_base r - 1 - i)%nat
         else Undefined.

#[global] Instance reverse_random_access T : RandomAccess (reverse_iterator T) := {
  it_diff last first := Z.of_nat (r_base first) - Z.of_nat (r_base last);
  it_plus r n := ReverseIterator (r_object r) (r_base r - n)%nat
}.

(** A [std::array] passed where an iterator is expected offers
    [operator[]] only. *)
#[global] Instance array_subscript T : Subscript (list T) T :=
  λ arr i, lookup_result arr i.

(** [&arr.front()], [arr.crbegin()] and [arr.crend()]. *)
Definition front {T} (arr : list T) : pointer T := Pointer arr 0.
Definition crbegin {T} (arr : list T) : reverse_iterator T :=
  ReverseIterator arr (length arr).
Definition crend {T} (arr : list T) : reverse_iterator T :=
  ReverseIterator arr 0.

(** [std::numeric_limits<T>::max()]. *)
Class NumericLimits (T : Type) := numeric_max : T.

(** ** namespace RangedArray *)

Module RangedArray.

Section Array.
Context {It T : Type} `{!Subscript It T, !RandomAccess It, !NumericLimits T}.

(** The distance measured between the two iterators. *)
Definition range (first last : It) : nat :=
  if 0 <=? it_diff last first
  then Z.to_nat (it_diff last first)
  else Z.to_nat (it_diff first last).

(** [array(first, last, std::index_sequence<I...>)]. *)
Definition array_idx (first last : It) (I : list nat) : result (list T) :=
  if (range first last <=? length I)%nat
  then mapM (subscript first) I
  else Ok ((λ _, numeric_max) <$> I).

(** [array<size>(first, last)]. *)
Definition array (size : nat) (first last : It) : result (list T) :=
  array_idx first last (seq 0 size).

(** [array<size>(first)]. *)
Definition array_n (size : nat) (first : It) : result (list T) :=
  array size first (it_plus first size).
End Array.

Section Merge.
Context {T : Type}.

(** [merge(A, std::index_sequence<IA...>, B, std::index_sequence<IB...>)];
    the [static_assert] on the two value types is the typing of [A] and
    [B] over one [T]. *)
Definition merge_idx {ItA ItB} `{!Subscript ItA T, !Subscript ItB T}
    (A : ItA) (IA : list nat) (B : ItB) (IB : list nat) : result (list T) :=
  a ← mapM (subscript A) IA;
  b ← mapM (subscript B) IB;
  Ok (a ++ b).

(** [merge(arr)]. *)
Definition merge1 (arr : list T) : result (list T) := Ok arr.

(** [merge(arrA, arrB)]. *)
Definition merge2 (arrA arrB : list T) : result (list T) :=
  merge_idx (front arrA) (seq 0 (length arrA))
            (front arrB) (seq 0 (length arrB)).

(** [merge(arrA, arrB, arrN...)] together with the overloads it
    collapses to: the first array and the list of those after it. *)
Fixpoint merge (arrA : list T) (arrN : list (list T)) : result (list T) :=
  match arrN with
  | [] => merge1 arrA
  | [arrB] => merge2 arrA arrB
  | arrB :: arrN' => ab ← merge2 arrA arrB; merge ab arrN'
  end.

(** [merge(arrs...)] for a pack of arrays; an empty pack matches no
    overload. *)
Definition merge_pack (arrs : list (list T)) : result (list T) :=
  match arrs with
  | [] => IllFormed "no matching function for call to merge()"
  | arrA :: arrN => merge arrA arrN
  end.
End Merge.

(** [indexInRange(min, max, std::index_sequence<sequence...>)]: the
    range-based [for] over [{sequence...}], left at the first index
    outside the bounds. *)
Fixpoint indexInRange_loop (min max : nat) (sequence : list nat) : bool :=
  match sequence with
  | [] => true
  | index :: rest =>
      if (index <? min)%nat || (max <? index)%nat then false
      else indexInRange_loop min max rest
  end.

(** With an empty pack the loop ranges over [{}], whose element type
    cannot be deduced. *)
Definition indexInRange (min max : nat) (sequence : list nat) : result bool :=
  match sequence with
  | [] => IllFormed "unable to deduce the element type of {}"
  | _ => Ok (if (max <? min)%nat then false
             else indexInRange_loop min max sequence)
  end.

End RangedArray.

(** ** namespace ByteArray *)

Module ByteArray.

(** The fixed-width integer types of [<cstdint>]. *)
Inductive width := W8 | W16 | W32 | W64.

Record itype := IntType { is_signed : bool; int_width : width }.

Definition uint8_t := IntType false W8.
Definition uint16_t := IntType false W16.
Definition uint32_t := IntType false W32.
Definition uint64_t := IntType false W64.
Definition int8_t := IntType true W8.
Definition int16_t := IntType true W16.
Definition int32_t := IntType true W32.
Definition int64_t := IntType true W64.

(** A type as a template argument: integral, or not ([float], [double],
    a class) with the size it occupies. *)
Inductive ctype :=
  | Integral (T : itype)
  | NonIntegral (size : nat).

Definition sizeof (T : itype) : nat :=
  match int_width T with W8 => 1 | W16 => 2 | W32 => 4 | W64 => 8 end.

Definition bit_width (T : itype) : Z := 8 * Z.of_nat (sizeof T).

Definition modulus (T : itype) : Z := 2 ^ bit_width T.

Definition min_value (T : itype) : Z :=
  if is_signed T then - 2 ^ (bit_width T - 1) else 0.

Definition max_value (T : itype) : Z :=
  if is_signed T then 2 ^ (bit_width T - 1) - 1 else 2 ^ bit_width T - 1.

(** The values of type [T]. *)
Definition in_range (T : itype) (v : Z) : Prop :=
  min_value T ≤ v ≤ max_value T.

(** [static_cast<T>(z)]: the value of [T] congruent to [z]. *)
Definition static_cast (T : itype) (z : Z) : Z :=
  if is_signed T
  then (z + 2 ^ (bit_width T - 1)) mod modulus T - 2 ^ (bit_width T - 1)
  else z mod modulus T.

(** Integral promotion: an operand narrower than [int] becomes [int]. *)
Definition promote (T : itype) : itype :=
  if (sizeof T <? 4)%nat then int32_t else T.

(** [x << k] for [x] of type [T]: computed in the promoted type; a count
    of at least its width is undefined. *)
Definition shl (T : itype) (x k : Z) : result Z :=
  if k <? bit_width (promote T)
  then Ok (static_cast (promote T) (x * 2 ^ k))
  else Undefined.

(** [x >> k] for [x] of type [T]: computed in the promoted type, copying
    the sign bit of a negative operand; a count of at least its width is
    undefined. *)
Definition shr (T : itype) (x k : Z) : result Z :=
  if k <? bit_width (promote T)
  then Ok (Z.shiftr x k)
  else Undefined.

(** [static constexpr bool is_native] of [LSB] and of [MSB]; the header
    refuses to build unless the target is little-endian. *)
Definition LSB_is_native : bool := true.
Definition MSB_is_native : bool := negb LSB_is_native.

(** The bytes a value of type [T] occupies in memory, at increasing
    addresses: what [reinterpret_cast<const std::array<uint8_t,
    sizeof(T)>&>(value)] reads on the little-endian target. *)
Definition byte_of (v : Z) (i : nat) : Z :=
  Z.land (Z.shiftr v (8 * Z.of_nat i)) 255.

Definition object_representation (T : itype) (v : Z) : list Z :=
  byte_of v <$> seq 0 (sizeof T).

Definition limits (T : itype) : NumericLimits Z := max_value T.

(** [byteArray<T, is_native>(value)], first overload. *)
Definition byteArray_lsb (T : itype) (value : Z) : result (list Z) :=
  RangedArray.array_n (NumericLimits0 := limits uint8_t) (sizeof T)
    (front (object_representation T value)).

(** [byteArray<T, is_native>(value)], second overload. *)
Definition byteArray_msb (T : itype) (value : Z) : result (list Z) :=
  RangedArray.array_n (NumericLimits0 := limits uint8_t) (sizeof T)
    (crbegin (object_representation T value)).

(** [byteArray<T, is_native>(value)]: [byte_array_if] leaves exactly one
    of the two overloads. *)
Definition byteArray (T : itype) (is_native : bool) (value : Z) : result (list Z) :=
  if Bool.eqb LSB_is_native is_native
  then byteArray_lsb T value
  else byteArray_msb T value.

(** [byteArray(first, std::index_sequence<I...>)] over elements of type [T]. *)
Definition byteArray_idx {It} `{!Subscript It Z} (T : itype) (first : It)
    (I : list nat) : result (list Z) :=
  parts ← mapM (λ i, x ← subscript first i; byteArray T true x) I;
  RangedArray.merge_pack parts.

(** [byteArray<size>(first)]. *)
Definition byteArray_n {It} `{!Subscript It Z} (T : itype) (size : nat)
    (first : It) : result (list Z) :=
  byteArray_idx T first (seq 0 size).

(** [byteArray(arr)] for a [std::array<T, size>]. *)
Definition byteArray_array (T : itype) (arr : list Z) : result (list Z) :=
  byteArray_n T (length arr) (front arr).

(** An argument of the generic overloads: a scalar or an array, with its
    element type. *)
Inductive value :=
  | Scalar (T : itype) (v : Z)
  | Array (T : itype) (arr : list Z).

(** [byteArray(x)] as overload resolution settles it for one argument. *)
Definition byteArray1 (x : value) : result (list Z) :=
  match x with
  | Scalar T v => byteArray T true v
  | Array T arr => byteArray_array T arr
  end.

(** [byteArray(value1, value2)]. *)
Definition byteArray2 (value1 value2 : value) : result (list Z) :=
  a ← byteArray1 value1;
  b ← byteArray1 value2;
  RangedArray.merge2 a b.

(** [byteArray(value1, value2, valueN...)] with one trailing argument. *)
Definition byteArray3 (value1 value2 value3 : value) : result (list Z) :=
  a12 ← byteArray2 value1 value2;
  a3 ← byteArray1 value3;
  byteArray2 (Array uint8_t a12) (Array uint8_t a3).

(** [reverseByteArray(arr)] for a [std::array<T, size>]. *)
Definition reverseByteArray_array (T : itype) (arr : list Z) : result (list Z) :=
  reversed ← RangedArray.array (NumericLimits0 := limits T) (length arr)
                (crbegin arr) (crend arr);
  byteArray_array T reversed.

(** [reverseByteArray(value)]. *)
Definition reverseByteArray (T : itype) (value : Z) : result (list Z) :=
  byteArray T false value.

(** [getInteger<T>(LSB, std::index_sequence<I...>)]: the expander list
    adds one shifted byte to [return_value] per index, left to right; each
    [+=] adds in the promoted type and converts the sum back to [T].  The
    sum is written with wrap-around; a sum that leaves a signed promoted
    type is undefined in C++, which can only happen when more bytes than
    [sizeof(T)] are read into a signed [T], and no property below is
    stated there. *)
Fixpoint accumulate {It} `{!Subscript It Z} (T : itype) (LSB : It)
    (I : list nat) (return_value : Z) : result Z :=
  match I with
  | [] => Ok return_value
  | i :: I' =>
      b ← subscript LSB i;
      s ← shl T (static_cast T b) (8 * Z.of_nat i);
      accumulate T LSB I'
        (static_cast T (static_cast (promote T) (return_value + s)))
  end.

Definition getInteger_idx {It} `{!Subscript It Z} (T : itype) (LSB : It)
    (I : list nat) : result Z :=
  accumulate T LSB I 0.

(** [getInteger<T, size>(first)]. *)
Definition getInteger_n {It} `{!Subscript It Z} (T : itype) (size : nat)
    (first : It) : result Z :=
  getInteger_idx T first (seq 0 size).

(** [getInteger<T>(arr)] for a [std::array<uint8_t, size>]. *)
Definition getInteger_array (T : itype) (arr : list Z) : result Z :=
  if (length arr <=? sizeof T)%nat
  then getInteger_idx T (front arr) (seq 0 (length arr))
  else IllFormed "Type specified cannot hold array data".

Definition is_integral (T : ctype) : bool :=
  match T with Integral _ => true | NonIntegral _ => false end.

Definition csizeof (T : ctype) : nat :=
  match T with Integral t => sizeof t | NonIntegral size => size end.

(** [getInteger<T, Tval, offset>(value)]. *)
Definition getInteger_value (T Tval : ctype) (offset : nat) (value : Z) : result Z :=
  match Tval, T with
  | Integral tval, Integral t =>
      if (offset <=? sizeof tval)%nat
      then s ← shr tval value (8 * Z.of_nat offset); Ok (static_cast t s)
      else IllFormed "Shift size is larger than argument"
  | _, _ => IllFormed "Type specified is not integral"
  end.

(** [totalSize<T...>()]: the expander list adds [sizeof(T)] to
    [total_size] per type, left to right. *)
Definition totalSize (Ts : list ctype) : nat :=
  foldl (λ total_size T, (total_size + csizeof T)%nat) 0%nat Ts.

(** The type of an argument: an integer type, or the class
    [std::array<T, N>] of [N * sizeof(T)] bytes. *)
Definition type_of (x : value) : ctype :=
  match x with
  | Scalar T _ => Integral T
  | Array T arr => NonIntegral (length arr * sizeof T)
  end.

End ByteArray.

(** ** The frame example *)

Module HDLC.
Import ByteArray.

Record BasicHeader := { address : Z; control : Z }.

Definition header_flag : Z := 0xFE.

Definition BasicHeader_serialize (h : BasicHeader) : result (list Z) :=
  byteArray3 (Scalar uint8_t header_flag) (Scalar uint8_t (address h))
             (Scalar uint8_t (control h)).

Record BasicData := { info : list Z }.

Definition BasicData_serialize (d : BasicData) : result (list Z) := Ok (info d).

(** [BasicData::operator T()]. *)
Definition BasicData_convert (T : itype) (d : BasicData) : result Z :=
  getInteger_n T (sizeof T) (info d).

(** [CRC16(data)]: [getInteger<uint16_t, 2>] binds its iterator to the
    array itself. *)
Definition CRC16 (data : list Z) : result Z :=
  x ← getInteger_n uint16_t 2 data;
  Ok (static_cast uint16_t (x + 0x4E)).

Record BasicFooter := { fcs : Z }.

Definition footer_flag : Z := 0xFE.

(** The constructor [BasicFooter(data)]. *)
Definition BasicFooter_of (data : list Z) : result BasicFooter :=
  c ← CRC16 data; Ok {| fcs := c |}.

Definition BasicFooter_serialize (f : BasicFooter) : result (list Z) :=
  byteArray2 (Scalar uint16_t (fcs f)) (Scalar uint8_t footer_flag).

Record HDLCFrame := { header : BasicHeader; data : BasicData; footer : BasicFooter }.

(** Aggregate initialisation of a frame: the footer comes from its
    default member initialiser [footer{data.info}]. *)
Definition HDLCFrame_of (h : BasicHeader) (d : BasicData) : result HDLCFrame :=
  f ← BasicFooter_of (info d);
  Ok {| header := h; data := d; footer := f |}.

Definition serialize (frame : HDLCFrame) : result (list Z) :=
  h ← BasicHeader_serialize (header frame);
  d ← BasicData_serialize (data frame);
  f ← BasicFooter_serialize (footer frame);
  RangedArray.merge h [d; f].

Definition my_frame : result HDLCFrame :=
  HDLCFrame_of {| address := 0xCE; control := 0x01 |}
               {| info := [0xDE; 0xAD; 0xBE; 0xEF; 0xFA; 0xCE; 0xB0; 0xA7] |}.

End HDLC.

(** ** Reference notions the properties are stated against *)

Module Reference.
Import ByteArray.

(** The little-endian accumulation [Σ byte[i] << (8*i)], with the first
    byte at place [s] and then from place 0. *)
Definition little_endian_sum_from (s : nat) (bytes : list Z) : Z :=
  foldr Z.add 0 (imap (λ i b, Z.shiftl b (8 * Z.of_nat (s + i))) bytes).

Definition little_endian_sum (bytes : list Z) : Z :=
  little_endian_sum_from 0 bytes.

(** Reading a byte sequence most-significant byte first. *)
Definition most_significant_first (bytes : list Z) : Z :=
  foldl (λ acc b, acc * 256 + b) 0 bytes.

(** The logical right shift of a value of type [T]: its bit pattern moved
    right with zeros entering at the top, read back as a value of [T]. *)
Definition logical_shr (T : itype) (v k : Z) : Z :=
  static_cast T (Z.shiftr (v mod modulus T) k).

(** Folding the two-array merge pairwise, left to right. *)
Definition merge_fold {T} (arrA : list T) (arrN : list (list T)) : result (list T) :=
  foldl (λ acc arr, a ← acc; RangedArray.merge2 a arr) (Ok arrA) arrN.

(** A byte group that reads the same in both directions. *)
Definition palindrome (bytes : list Z) : Prop := reverse bytes = bytes.

End Reference.

Import ByteArray HDLC Reference.

(** Membership of a literal in the range of a concrete type. *)
Ltac literal_in_range := unfold in_range; vm_compute; split; discriminate.

(** ** The result monad *)

Lemma mapM_Ok {A B} (f : A → result B) (g : A → B) (l : list A) :
  Forall (λ x, f x = Ok (g x)) l → mapM f l = Ok (g <$> l).
Proof.
  induction 1 as [|x l Hx _ IH]; [reflexivity|].
  cbn. rewrite Hx. cbn. rewrite IH. reflexivity.
Qed.

Lemma mapM_cons_Ok {A B} (f : A → result B) x l y k :
  f x = Ok y → mapM f l = Ok k → mapM f (x :: l) = Ok (y :: k).
Proof. intros Hx Hl. cbn. rewrite Hx. cbn. rewrite Hl. reflexivity. Qed.

Lemma mapM_seq_lookup {B} (f : nat → result B) (l : list B) :
  (∀ i x, l !! i = Some x → f i = Ok x) →
  mapM f (seq 0 (length l)) = Ok l.
Proof.
  intros Hf.
  assert (Hgen : ∀ k s, (∀ i x, k !! i = Some x → f (s + i)%nat = Ok x) →
    mapM f (seq s (length k)) = Ok k).
  { clear. induction k as [|x k IH]; intros s Hk; [reflexivity|].
    cbn [length seq]. apply mapM_cons_Ok.
    - rewrite <- (Nat.add_0_r s). apply Hk. reflexivity.
    - apply IH. intros i y Hy.
      replace (S s + i)%nat with (s + S i)%nat by lia. apply Hk. exact Hy. }
  apply Hgen. exact Hf.
Qed.

Lemma fmap_const_seq {A} (x : A) (s n : nat) :
  (λ _, x) <$> seq s n = replicate n x.
Proof.
  revert s. induction n as [|n IH]; intros s; [reflexivity|].
  cbn. f_equal. apply IH.
Qed.

(** ** Reading through iterators *)

Lemma lookup_result_Some {T} (l : list T) i x :
  l !! i = Some x → lookup_result l i = Ok x.
Proof. unfold lookup_result. intros ->. reflexivity. Qed.

Lemma subscript_pointer {T} (obj : list T) (pos i : nat) :
  subscript (Pointer obj pos) i = lookup_result obj (pos + i).
Proof. reflexivity. Qed.

Lemma subscript_crbegin {T} (arr : list T) (i : nat) x :
  reverse arr !! i = Some x → subscript (crbegin arr) i = Ok x.
Proof.
  intros Hx. pose proof (lookup_lt_Some _ _ _ Hx) as Hi.
  rewrite length_reverse in Hi.
  rewrite reverse_lookup in Hx by exact Hi.
  unfold subscript, reverse_subscript, crbegin. cbn [r_object r_base].
  destruct (Nat.ltb_spec i (length arr)) as [_|?]; [|lia].
  apply lookup_result_Some.
  replace (length arr - 1 - i)%nat with (length arr - S i)%nat by lia.
  exact Hx.
Qed.

Lemma subscript_front {T} (arr : list T) (i : nat) x :
  arr !! i = Some x → subscript (front arr) i = Ok x.
Proof.
  intros Hx. unfold front. rewrite subscript_pointer.
  apply lookup_result_Some. exact Hx.
Qed.

Lemma subscript_array {T} (arr : list T) (i : nat) x :
  arr !! i = Some x → subscript arr i = Ok x.
Proof. apply lookup_result_Some. Qed.

Create HintDb reads discriminated.
#[local] Hint Resolve subscript_front subscript_array subscript_crbegin
  lookup_result_Some : reads.

Lemma mapM_pointer {T} (obj : list T) (pos n : nat) :
  (pos + n ≤ length obj)%nat →
  mapM (subscript (Pointer obj pos)) (seq 0 n) = Ok (take n (drop pos obj)).
Proof.
  intros Hlen.
  pose proof (mapM_seq_lookup (subscript (Pointer obj pos)) (take n (drop pos obj))) as H.
  rewrite length_take, length_drop in H.
  replace (n `min` (length obj - pos))%nat with n in H by lia.
  apply H. intros i x Hx.
  rewrite subscript_pointer. apply lookup_result_Some.
  pose proof (lookup_lt_Some _ _ _ Hx) as Hi. rewrite length_take in Hi.
  rewrite lookup_take_lt in Hx by lia.
  rewrite lookup_drop in Hx. exact Hx.
Qed.

Lemma mapM_front {T} (arr : list T) :
  mapM (subscript (front arr)) (seq 0 (length arr)) = Ok arr.
Proof.
  apply mapM_seq_lookup. auto with reads.
Qed.

Lemma mapM_crbegin {T} (arr : list T) :
  mapM (subscript (crbegin arr)) (seq 0 (length arr)) = Ok (reverse arr).
Proof.
  rewrite <- (length_reverse arr) at 1.
  apply mapM_seq_lookup. auto with reads.
Qed.

(** ** RangedArray: building arrays *)

Section ArrayFacts.
Context {It T : Type} `{!Subscript It T, !RandomAccess It, !NumericLimits T}.

Lemma array_idx_long (first last : It) (I : list nat) :
  (length I < RangedArray.range first last)%nat →
  RangedArray.array_idx first last I = Ok ((λ _, numeric_max) <$> I).
Proof.
  intros Hlt. unfold RangedArray.array_idx.
  destruct (Nat.leb_spec (RangedArray.range first last) (length I)); [lia|].
  reflexivity.
Qed.

Lemma array_idx_short (first last : It) (I : list nat) :
  (RangedArray.range first last ≤ length I)%nat →
  RangedArray.array_idx first last I = mapM (subscript first) I.
Proof.
  intros Hle. unfold RangedArray.array_idx.
  destruct (Nat.leb_spec (RangedArray.range first last) (length I)); [|lia].
  reflexivity.
Qed.

(** C9. Whenever the distance measured between [first] and [last] is
    strictly greater than the requested length [n], [array<n>(first, last)]
    returns [n] copies of [std::numeric_limits<T>::max()]: no element of the
    range is read, so its first [n] elements are discarded. *)
Theorem array_longer_range_is_max_filled (n : nat) (first last : It) :
  (n < RangedArray.range first last)%nat →
  RangedArray.array n first last = Ok (replicate n numeric_max).
Proof.
  intros Hlt. unfold RangedArray.array.
  rewrite array_idx_long by (rewrite length_seq; exact Hlt).
  rewrite fmap_const_seq. reflexivity.
Qed.

End ArrayFacts.

Lemma array_longer_range_is_max_filled_witness :
  RangedArray.array (NumericLimits0 := limits uint8_t) 2
    (front [10; 20; 30]) (Pointer [10; 20; 30] 3)
  = Ok (replicate 2 (max_value uint8_t)).
Proof.
  apply (array_longer_range_is_max_filled (NumericLimits0 := limits uint8_t)
           2 (front [10; 20; 30]) (Pointer [10; 20; 30] 3)).
  vm_compute. lia.
Defined.

(** Over the array [10 20 30], asking for two elements of the
    three-element range gives [255 255] and not [10 20]. *)
Example array_longer_range_discards_elements :
  RangedArray.array (NumericLimits0 := limits uint8_t) 2
    (front [10; 20; 30]) (Pointer [10; 20; 30] 3) = Ok [255; 255]
  ∧ take 2 [10; 20; 30] = [10; 20].
Proof. split; reflexivity. Qed.

Lemma range_pointer {T} (obj : list T) (a b : nat) :
  RangedArray.range (Pointer obj a) (Pointer obj b) = (if (a <=? b)%nat then b - a else a - b)%nat.
Proof.
  unfold RangedArray.range. cbn [it_diff pointer_random_access p_pos].
  destruct (Z.leb_spec 0 (Z.of_nat b - Z.of_nat a));
    destruct (Nat.leb_spec a b); lia.
Qed.

(** The range-based builder over pointers when the measured distance does
    not exceed the requested length: [size] elements are copied from
    [first] on, past [last] when the distance is smaller. *)
Lemma array_pointer_short {T} `{!NumericLimits T} (obj : list T) (a b size : nat) :
  (RangedArray.range (Pointer obj a) (Pointer obj b) ≤ size)%nat →
  (a + size ≤ length obj)%nat →
  RangedArray.array size (Pointer obj a) (Pointer obj b) = Ok (take size (drop a obj)).
Proof.
  intros Hr Hlen. unfold RangedArray.array.
  rewrite array_idx_short by (rewrite length_seq; exact Hr).
  apply mapM_pointer. exact Hlen.
Qed.

Lemma array_n_front {T} `{!NumericLimits T} (arr : list T) :
  RangedArray.array_n (length arr) (front arr) = Ok arr.
Proof.
  unfold RangedArray.array_n, front. cbn [it_plus pointer_random_access p_object p_pos].
  rewrite array_pointer_short.
  - rewrite drop_0, firstn_all. reflexivity.
  - rewrite range_pointer. cbn. lia.
  - lia.
Qed.

Lemma range_crbegin_crend {T} (arr : list T) :
  RangedArray.range (crbegin arr) (crend arr) = length arr.
Proof.
  unfold RangedArray.range, crbegin, crend.
  cbn [it_diff reverse_random_access r_base].
  destruct (Z.leb_spec 0 (Z.of_nat (length arr) - Z.of_nat 0%nat)); lia.
Qed.

Lemma array_crbegin_crend {T} `{!NumericLimits T} (arr : list T) :
  RangedArray.array (length arr) (crbegin arr) (crend arr) = Ok (reverse arr).
Proof.
  unfold RangedArray.array.
  rewrite array_idx_short by (rewrite length_seq, range_crbegin_crend; lia).
  apply mapM_crbegin.
Qed.

Lemma array_n_crbegin {T} `{!NumericLimits T} (arr : list T) :
  RangedArray.array_n (length arr) (crbegin arr) = Ok (reverse arr).
Proof.
  unfold RangedArray.array_n.
  replace (it_plus (crbegin arr) (length arr)) with (crend arr).
  - apply array_crbegin_crend.
  - unfold crbegin, crend. cbn. f_equal. lia.
Qed.

(** ** RangedArray: merging arrays *)

Section MergeFacts.
Context {T : Type}.
Implicit Types arrA arrB arrC : list T.

Lemma merge2_app arrA arrB : RangedArray.merge2 arrA arrB = Ok (arrA ++ arrB).
Proof.
  unfold RangedArray.merge2, RangedArray.merge_idx.
  rewrite !mapM_front. reflexivity.
Qed.

Lemma merge_concat arrA (arrN : list (list T)) :
  RangedArray.merge arrA arrN = Ok (arrA ++ concat arrN).
Proof.
  revert arrA. induction arrN as [|arrB arrN IH]; intros arrA.
  - cbn. unfold RangedArray.merge1. rewrite app_nil_r. reflexivity.
  - destruct arrN as [|arrC arrN].
    + cbn. rewrite merge2_app, app_nil_r. reflexivity.
    + change (RangedArray.merge arrA (arrB :: arrC :: arrN))
        with (ab ← RangedArray.merge2 arrA arrB; RangedArray.merge ab (arrC :: arrN)).
      rewrite merge2_app. cbn [mbind result_bind].
      rewrite IH. cbn [concat]. rewrite <- app_assoc. reflexivity.
Qed.

Lemma merge_fold_concat arrA (arrN : list (list T)) :
  merge_fold arrA arrN = Ok (arrA ++ concat arrN).
Proof.
  unfold merge_fold. revert arrA.
  induction arrN as [|arrB arrN IH]; intros arrA.
  - cbn. rewrite app_nil_r. reflexivity.
  - cbn [foldl mbind result_bind]. rewrite merge2_app, IH.
    cbn [concat]. rewrite <- app_assoc. reflexivity.
Qed.

(** C5. For arrays [arrA] of length [m] and [arrB] of length [n] over one
    element type, [merge(arrA, arrB)] returns an array of length [m + n]
    whose first [m] elements are those of [arrA] in order and whose last
    [n] elements are those of [arrB] in order. *)
Theorem merge2_length_content arrA arrB :
  ∃ r, RangedArray.merge2 arrA arrB = Ok r
     ∧ length r = (length arrA + length arrB)%nat
     ∧ take (length arrA) r = arrA
     ∧ drop (length arrA) r = arrB
     ∧ (∀ i, (i < length arrA)%nat → r !! i = arrA !! i)
     ∧ (∀ j, (j < length arrB)%nat → r !! (length arrA + j)%nat = arrB !! j).
Proof.
  exists (arrA ++ arrB). split; [apply merge2_app|].
  split; [apply length_app|].
  split; [apply take_app_length|].
  split; [apply drop_app_length|].
  split.
  - intros i Hi. apply lookup_app_l. exact Hi.
  - intros j _. rewrite lookup_app_r by lia. f_equal. lia.
Qed.

(** C6. Merging is associative, [merge(merge(A, B), C)] and
    [merge(A, merge(B, C))] being the same array element for element, and
    the variadic [merge] of three or more arrays is the pairwise
    left-to-right fold of the two-array merge, [merge(merge(A, B), C)] for
    three. *)
Theorem merge_associative_and_left_fold arrA arrB arrC (arrN : list (list T)) :
  (ab ← RangedArray.merge2 arrA arrB; RangedArray.merge2 ab arrC)
    = (bc ← RangedArray.merge2 arrB arrC; RangedArray.merge2 arrA bc)
  ∧ RangedArray.merge arrA [arrB; arrC]
    = (ab ← RangedArray.merge2 arrA arrB; RangedArray.merge2 ab arrC)
  ∧ RangedArray.merge arrA (arrB :: arrC :: arrN)
    = merge_fold arrA (arrB :: arrC :: arrN)
  ∧ RangedArray.merge arrA (arrB :: arrC :: arrN)
    = Ok (arrA ++ arrB ++ arrC ++ concat arrN).
Proof.
  split; [|split; [|split]].
  - rewrite !merge2_app. cbn [mbind result_bind].
    rewrite !merge2_app, app_assoc. reflexivity.
  - reflexivity.
  - rewrite merge_concat, merge_fold_concat. reflexivity.
  - rewrite merge_concat. reflexivity.
Qed.

End MergeFacts.

(** ** Integer types and conversions *)

Lemma modulus_half (T : itype) : modulus T = 2 * 2 ^ (bit_width T - 1).
Proof. destruct T as [s []]; reflexivity. Qed.

Lemma half_modulus_pos (T : itype) : 0 < 2 ^ (bit_width T - 1).
Proof. destruct T as [s []]; reflexivity. Qed.

Lemma modulus_pos (T : itype) : 0 < modulus T.
Proof. rewrite modulus_half. pose proof (half_modulus_pos T). lia. Qed.

Lemma static_cast_mod (T : itype) (z : Z) :
  static_cast T z mod modulus T = z mod modulus T.
Proof.
  unfold static_cast. destruct (is_signed T).
  - rewrite Zminus_mod_idemp_l. f_equal. lia.
  - apply Z.mod_mod. pose proof (modulus_pos T). lia.
Qed.

Lemma static_cast_congr (T : itype) (a b : Z) :
  a mod modulus T = b mod modulus T → static_cast T a = static_cast T b.
Proof.
  intros Hab. unfold static_cast. destruct (is_signed T).
  - f_equal. rewrite (Zplus_mod a), (Zplus_mod b), Hab. reflexivity.
  - exact Hab.
Qed.

Lemma static_cast_id (T : itype) (v : Z) :
  in_range T v → static_cast T v = v.
Proof.
  unfold in_range, min_value, max_value, static_cast.
  pose proof (modulus_half T) as HM. pose proof (half_modulus_pos T) as Hh.
  destruct (is_signed T); intros Hv.
  - rewrite HM. rewrite Z.mod_small by lia. lia.
  - apply Z.mod_small. rewrite HM. unfold modulus in HM. lia.
Qed.

Lemma static_cast_in_range (T : itype) (z : Z) : in_range T (static_cast T z).
Proof.
  unfold in_range, min_value, max_value, static_cast.
  pose proof (modulus_half T) as HM. pose proof (half_modulus_pos T) as Hh.
  destruct (is_signed T).
  - pose proof (Z.mod_pos_bound (z + 2 ^ (bit_width T - 1)) (modulus T)) as Hb.
    rewrite HM in *. lia.
  - pose proof (Z.mod_pos_bound z (modulus T)) as Hb. unfold modulus in *. lia.
Qed.

Lemma modulus_promote_divide (T : itype) : (modulus T | modulus (promote T)).
Proof.
  destruct T as [s []]; cbn.
  - exists (2 ^ 24). reflexivity.
  - exists (2 ^ 16). reflexivity.
  - exists 1. destruct s; reflexivity.
  - exists 1. destruct s; reflexivity.
Qed.

Lemma mod_promote (T : itype) (z : Z) :
  (z mod modulus (promote T)) mod modulus T = z mod modulus T.
Proof.
  apply Z.mod_mod_divide, modulus_promote_divide.
Qed.

Lemma static_cast_promote_mod (T : itype) (z : Z) :
  static_cast (promote T) z mod modulus T = z mod modulus T.
Proof.
  rewrite <- (mod_promote T (static_cast (promote T) z)).
  rewrite static_cast_mod. apply mod_promote.
Qed.

Lemma static_cast_promote (T : itype) (z : Z) :
  static_cast T (static_cast (promote T) z) = static_cast T z.
Proof. apply static_cast_congr, static_cast_promote_mod. Qed.

(** ** ByteArray: splitting values into bytes *)

Lemma length_object_representation (T : itype) (v : Z) :
  length (object_representation T v) = sizeof T.
Proof. unfold object_representation. rewrite length_fmap, length_seq. reflexivity. Qed.

Lemma lookup_object_representation (T : itype) (v : Z) (i : nat) :
  (i < sizeof T)%nat → object_representation T v !! i = Some (byte_of v i).
Proof.
  intros Hi. unfold object_representation.
  rewrite list_lookup_fmap, lookup_seq_lt by exact Hi. reflexivity.
Qed.

Lemma byte_of_div_mod (v : Z) (i : nat) :
  byte_of v i = (v / 2 ^ (8 * Z.of_nat i)) mod 2 ^ 8.
Proof.
  unfold byte_of. rewrite Z.shiftr_div_pow2 by lia.
  change 255 with (Z.ones 8). apply Z.land_ones. lia.
Qed.

Lemma byte_of_bounds (v : Z) (i : nat) : 0 ≤ byte_of v i < 256.
Proof.
  rewrite byte_of_div_mod. change (2 ^ 8) with 256.
  apply Z.mod_pos_bound. lia.
Qed.

Lemma byteArray_lsb_eq (T : itype) (v : Z) :
  byteArray_lsb T v = Ok (object_representation T v).
Proof.
  unfold byteArray_lsb.
  rewrite <- (length_object_representation T v) at 1.
  apply array_n_front.
Qed.

Lemma byteArray_msb_eq (T : itype) (v : Z) :
  byteArray_msb T v = Ok (reverse (object_representation T v)).
Proof.
  unfold byteArray_msb.
  rewrite <- (length_object_representation T v) at 1.
  apply array_n_crbegin.
Qed.

Lemma byteArray_native (T : itype) (v : Z) :
  byteArray T true v = Ok (object_representation T v).
Proof. apply byteArray_lsb_eq. Qed.

Lemma byteArray_reversed (T : itype) (v : Z) :
  byteArray T false v = Ok (reverse (object_representation T v)).
Proof. apply byteArray_msb_eq. Qed.

(** ** ByteArray: assembling integers *)

Lemma little_endian_sum_from_cons (s : nat) (b : Z) (bytes : list Z) :
  little_endian_sum_from s (b :: bytes)
  = b * 2 ^ (8 * Z.of_nat s) + little_endian_sum_from (S s) bytes.
Proof.
  unfold little_endian_sum_from. rewrite imap_cons. cbn [foldr].
  rewrite Nat.add_0_r, Z.shiftl_mul_pow2 by lia. f_equal. f_equal.
  apply imap_ext. intros i x _. cbn. do 2 f_equal. lia.
Qed.

Lemma little_endian_sum_from_app (s : nat) (l k : list Z) :
  little_endian_sum_from s (l ++ k)
  = little_endian_sum_from s l + little_endian_sum_from (s + length l) k.
Proof.
  revert s. induction l as [|b l IH]; intros s.
  - cbn [app length]. rewrite Nat.add_0_r. reflexivity.
  - cbn [app length]. rewrite !little_endian_sum_from_cons, IH.
    replace (S s + length l)%nat with (s + S (length l))%nat by lia. lia.
Qed.

Lemma shl_defined (T : itype) (x : Z) (i : nat) :
  (i < sizeof (promote T))%nat →
  shl T x (8 * Z.of_nat i) = Ok (static_cast (promote T) (x * 2 ^ (8 * Z.of_nat i))).
Proof.
  intros Hi. unfold shl, bit_width.
  destruct (Z.ltb_spec (8 * Z.of_nat i) (8 * Z.of_nat (sizeof (promote T)))); [reflexivity|lia].
Qed.

Lemma accumulate_step_mod (T : itype) (acc b k : Z) :
  static_cast T (static_cast (promote T)
    (acc + static_cast (promote T) (static_cast T b * 2 ^ k))) mod modulus T
  = (acc + b * 2 ^ k) mod modulus T.
Proof.
  rewrite static_cast_mod, static_cast_promote_mod.
  rewrite Zplus_mod, static_cast_promote_mod.
  rewrite (Zmult_mod (static_cast T b)), static_cast_mod.
  rewrite <- Zmult_mod, <- Zplus_mod. reflexivity.
Qed.

(** The accumulation loop over the indices [s, s+1, ...]: as long as every
    shift stays below the width of the promoted type, the result is the
    little-endian sum of the bytes read, converted to [T]. *)
Lemma accumulate_sum {It} `{!Subscript It Z} (T : itype) (LSB : It)
    (bytes : list Z) (s : nat) (acc : Z) :
  (∀ i b, bytes !! i = Some b → subscript LSB (s + i) = Ok b) →
  (s + length bytes ≤ sizeof (promote T))%nat →
  static_cast T acc = acc →
  accumulate T LSB (seq s (length bytes)) acc
  = Ok (static_cast T (acc + little_endian_sum_from s bytes)).
Proof.
  revert s acc. induction bytes as [|b bytes IH]; intros s acc Hread Hlen Hacc.
  - cbn. unfold little_endian_sum_from. cbn. rewrite Z.add_0_r, Hacc. reflexivity.
  - cbn [length seq accumulate].
    rewrite <- (Nat.add_0_r s) at 1. rewrite (Hread 0%nat b eq_refl).
    cbn [mbind result_bind].
    rewrite shl_defined by (cbn [length] in Hlen; lia).
    cbn [mbind result_bind].
    rewrite IH.
    + f_equal. apply static_cast_congr.
      rewrite little_endian_sum_from_cons, Z.add_assoc.
      rewrite Zplus_mod, accumulate_step_mod, <- Zplus_mod. reflexivity.
    + intros i x Hx. replace (S s + i)%nat with (s + S i)%nat by lia.
      apply Hread. exact Hx.
    + cbn [length] in Hlen. lia.
    + apply static_cast_id, static_cast_in_range.
Qed.

Lemma getInteger_idx_sum {It} `{!Subscript It Z} (T : itype) (LSB : It)
    (bytes : list Z) :
  (∀ i b, bytes !! i = Some b → subscript LSB i = Ok b) →
  (length bytes ≤ sizeof (promote T))%nat →
  getInteger_idx T LSB (seq 0 (length bytes))
  = Ok (static_cast T (little_endian_sum bytes)).
Proof.
  intros Hread Hlen. unfold getInteger_idx.
  rewrite (accumulate_sum T LSB bytes 0 0).
  - reflexivity.
  - exact Hread.
  - lia.
  - apply static_cast_id. unfold in_range, min_value, max_value.
    pose proof (half_modulus_pos T). pose proof (modulus_pos T) as HM.
    unfold modulus in HM. destruct (is_signed T); lia.
Qed.

Lemma sizeof_promote (T : itype) : (sizeof T ≤ sizeof (promote T))%nat.
Proof. destruct T as [[] []]; cbn; lia. Qed.

Lemma getInteger_array_sum (T : itype) (arr : list Z) :
  (length arr ≤ sizeof T)%nat →
  getInteger_array T arr = Ok (static_cast T (little_endian_sum arr)).
Proof.
  intros Hlen. unfold getInteger_array.
  destruct (Nat.leb_spec (length arr) (sizeof T)); [|lia].
  apply getInteger_idx_sum; [auto with reads|].
  pose proof (sizeof_promote T). lia.
Qed.

Lemma getInteger_array_rejected (T : itype) (arr : list Z) :
  (sizeof T < length arr)%nat →
  getInteger_array T arr = IllFormed "Type specified cannot hold array data".
Proof.
  intros Hlen. unfold getInteger_array.
  destruct (Nat.leb_spec (length arr) (sizeof T)); [lia|reflexivity].
Qed.

(** The bytes of a value add up to the value modulo [2 ^ (8 * n)]. *)
Lemma little_endian_sum_bytes (v : Z) (n : nat) :
  little_endian_sum (byte_of v <$> seq 0 n) = v mod 2 ^ (8 * Z.of_nat n).
Proof.
  unfold little_endian_sum. induction n as [|n IH].
  - cbn. symmetry. apply Z.mod_1_r.
  - rewrite seq_S, fmap_app, little_endian_sum_from_app, IH.
    rewrite length_fmap, length_seq. cbn [fmap list_fmap plus].
    rewrite little_endian_sum_from_cons.
    unfold little_endian_sum_from at 1. cbn [imap foldr].
    rewrite byte_of_div_mod, Z.add_0_r.
    replace (8 * Z.of_nat (S n)) with (8 * Z.of_nat n + 8) by lia.
    rewrite Z.pow_add_r by lia.
    rewrite Z.rem_mul_r by lia. lia.
Qed.

Lemma little_endian_sum_object (T : itype) (v : Z) :
  little_endian_sum (object_representation T v) = v mod modulus T.
Proof. apply little_endian_sum_bytes. Qed.

Lemma static_cast_mod_modulus (T : itype) (v : Z) :
  static_cast T (v mod modulus T) = static_cast T v.
Proof. apply static_cast_congr, Z.mod_mod. pose proof (modulus_pos T). lia. Qed.

Lemma little_endian_sum_from_S (s : nat) (bytes : list Z) :
  little_endian_sum_from (S s) bytes = 256 * little_endian_sum_from s bytes.
Proof.
  revert s. induction bytes as [|b bytes IH]; intros s.
  - reflexivity.
  - rewrite !little_endian_sum_from_cons, IH.
    replace (8 * Z.of_nat (S s)) with (8 * Z.of_nat s + 8) by lia.
    rewrite Z.pow_add_r by lia. change (2 ^ 8) with 256. lia.
Qed.

Lemma little_endian_sum_cons (b : Z) (bytes : list Z) :
  little_endian_sum (b :: bytes) = b + 256 * little_endian_sum bytes.
Proof.
  unfold little_endian_sum.
  rewrite little_endian_sum_from_cons, little_endian_sum_from_S.
  cbn. lia.
Qed.

Lemma little_endian_sum_bounds (bytes : list Z) :
  Forall (λ b, 0 ≤ b < 256) bytes →
  0 ≤ little_endian_sum bytes < 2 ^ (8 * Z.of_nat (length bytes)).
Proof.
  induction 1 as [|b bytes Hb _ IH].
  - cbn. lia.
  - rewrite little_endian_sum_cons. cbn [length].
    replace (8 * Z.of_nat (S (length bytes))) with (8 + 8 * Z.of_nat (length bytes)) by lia.
    rewrite Z.pow_add_r by lia. change (2 ^ 8) with 256. lia.
Qed.

(** Within the width of an unsigned [T] the conversion changes nothing:
    the result is the little-endian sum itself. *)
Lemma static_cast_little_endian_sum (T : itype) (bytes : list Z) :
  is_signed T = false →
  Forall (λ b, 0 ≤ b < 256) bytes →
  (length bytes ≤ sizeof T)%nat →
  static_cast T (little_endian_sum bytes) = little_endian_sum bytes.
Proof.
  intros Hs Hb Hlen. apply static_cast_id.
  unfold in_range, min_value, max_value. rewrite Hs.
  pose proof (little_endian_sum_bounds bytes Hb) as Hsum.
  assert (2 ^ (8 * Z.of_nat (length bytes)) ≤ 2 ^ bit_width T).
  { apply Z.pow_le_mono_r; unfold bit_width; lia. }
  lia.
Qed.

Lemma most_significant_first_reverse (bytes : list Z) :
  most_significant_first (reverse bytes) = little_endian_sum bytes.
Proof.
  unfold most_significant_first. induction bytes as [|b bytes IH].
  - reflexivity.
  - rewrite reverse_cons, foldl_app, IH, little_endian_sum_cons. cbn. lia.
Qed.

(** C3. For every value [v] of a fixed-width integer type [T] of [W]
    bytes, the native split of [v] is its [W] bytes least-significant
    first, and assembling those [W] bytes as a [T] gives [v] back, through
    [getInteger<T>(arr)] as through [getInteger<T, W>(first)]. *)
Theorem native_split_assemble_roundtrip (T : itype) (v : Z) :
  in_range T v →
  ∃ bytes, byteArray T true v = Ok bytes
    ∧ length bytes = sizeof T
    ∧ (∀ i, (i < sizeof T)%nat →
         bytes !! i = Some ((v / 2 ^ (8 * Z.of_nat i)) mod 2 ^ 8))
    ∧ getInteger_array T bytes = Ok v
    ∧ getInteger_n T (sizeof T) (front bytes) = Ok v.
Proof.
  intros Hv. exists (object_representation T v).
  assert (Hsum : static_cast T (little_endian_sum (object_representation T v)) = v).
  { rewrite little_endian_sum_object, static_cast_mod_modulus.
    apply static_cast_id. exact Hv. }
  split; [apply byteArray_native|].
  split; [apply length_object_representation|].
  split.
  { intros i Hi. rewrite lookup_object_representation by exact Hi.
    rewrite byte_of_div_mod. reflexivity. }
  split.
  - rewrite getInteger_array_sum by (rewrite length_object_representation; lia).
    rewrite Hsum. reflexivity.
  - unfold getInteger_n.
    rewrite <- (length_object_representation T v) at 1.
    rewrite getInteger_idx_sum.
    + rewrite Hsum. reflexivity.
    + auto with reads.
    + rewrite length_object_representation. apply sizeof_promote.
Qed.

Lemma native_split_assemble_roundtrip_witness :
  ∃ bytes, byteArray int16_t true (-2) = Ok bytes
    ∧ length bytes = sizeof int16_t
    ∧ (∀ i, (i < sizeof int16_t)%nat →
         bytes !! i = Some ((-2 / 2 ^ (8 * Z.of_nat i)) mod 2 ^ 8))
    ∧ getInteger_array int16_t bytes = Ok (-2)
    ∧ getInteger_n int16_t (sizeof int16_t) (front bytes) = Ok (-2).
Proof.
  apply (native_split_assemble_roundtrip int16_t (-2)).
  literal_in_range.
Defined.

(** C4, at the input [getInteger<uint16_t, 3>(first)] over the bytes
    [01 02 03]: the iterator overload takes three bytes into a 16-bit
    type without any rejection and returns [0x0201], the little-endian sum
    [0x030201] cut to its low 16 bits, while the array overload refuses
    the same three bytes when the program is built. *)
Theorem getInteger_iterator_truncates :
  getInteger_n uint16_t 3 (front [0x01; 0x02; 0x03]) = Ok 0x0201
  ∧ little_endian_sum [0x01; 0x02; 0x03] = 0x030201
  ∧ getInteger_array uint16_t [0x01; 0x02; 0x03]
    = IllFormed "Type specified cannot hold array data".
Proof. repeat split. Qed.

(** C7. For every value [v] of a fixed-width integer type [T] of [W]
    bytes, [reverseByteArray(v)] is [byteArray<T, false>(v)], the native
    byte sequence of [v] in the opposite order: [W] bytes, each between 0
    and 255, the byte at place [i] being byte [W - 1 - i] of [v], so the
    most significant comes first.  Reading those [W] bytes
    most-significant first gives [v] back: through [getInteger] walking
    the reversed array from its end, and as the value of the bytes read
    in order, converted to [T]. *)
Theorem reversed_split_roundtrip (T : itype) (v : Z) :
  in_range T v →
  ∃ native reversed,
    byteArray T true v = Ok native
    ∧ reverseByteArray T v = Ok reversed
    ∧ byteArray T false v = Ok reversed
    ∧ reversed = reverse native
    ∧ length native = sizeof T
    ∧ length reversed = sizeof T
    ∧ (∀ i, (i < sizeof T)%nat →
         native !! i = Some ((v / 2 ^ (8 * Z.of_nat i)) mod 2 ^ 8))
    ∧ (∀ i, (i < sizeof T)%nat →
         reversed !! i
         = Some ((v / 2 ^ (8 * Z.of_nat (sizeof T - 1 - i))) mod 2 ^ 8))
    ∧ Forall (λ b, 0 ≤ b < 256) reversed
    ∧ getInteger_n T (sizeof T) (crbegin reversed) = Ok v
    ∧ static_cast T (most_significant_first reversed) = v.
Proof.
  intros Hv.
  exists (object_representation T v), (reverse (object_representation T v)).
  assert (Hsum : static_cast T (little_endian_sum (object_representation T v)) = v).
  { rewrite little_endian_sum_object, static_cast_mod_modulus.
    apply static_cast_id. exact Hv. }
  split; [apply byteArray_native|].
  split; [apply byteArray_reversed|].
  split; [apply byteArray_reversed|].
  split; [reflexivity|].
  split; [apply length_object_representation|].
  split; [rewrite length_reverse; apply length_object_representation|].
  split.
  { intros i Hi. rewrite lookup_object_representation by exact Hi.
    rewrite byte_of_div_mod. reflexivity. }
  split.
  { intros i Hi.
    rewrite reverse_lookup by (rewrite length_object_representation; exact Hi).
    rewrite length_object_representation.
    rewrite lookup_object_representation by lia.
    rewrite byte_of_div_mod.
    replace (sizeof T - S i)%nat with (sizeof T - 1 - i)%nat by lia.
    reflexivity. }
  split.
  { apply Forall_reverse. unfold object_representation.
    apply Forall_fmap, Forall_forall. intros i _. apply byte_of_bounds. }
  split.
  - unfold getInteger_n.
    rewrite <- (length_object_representation T v) at 1.
    rewrite getInteger_idx_sum.
    + rewrite Hsum. reflexivity.
    + intros i b Hb. apply subscript_crbegin.
      rewrite reverse_involutive. exact Hb.
    + rewrite length_object_representation. apply sizeof_promote.
  - rewrite most_significant_first_reverse. exact Hsum.
Qed.

Lemma reversed_split_roundtrip_witness :
  ∃ native reversed,
    byteArray int32_t true (-2) = Ok native
    ∧ reverseByteArray int32_t (-2) = Ok reversed
    ∧ byteArray int32_t false (-2) = Ok reversed
    ∧ reversed = reverse native
    ∧ length native = sizeof int32_t
    ∧ length reversed = sizeof int32_t
    ∧ (∀ i, (i < sizeof int32_t)%nat →
         native !! i = Some ((-2 / 2 ^ (8 * Z.of_nat i)) mod 2 ^ 8))
    ∧ (∀ i, (i < sizeof int32_t)%nat →
         reversed !! i
         = Some ((-2 / 2 ^ (8 * Z.of_nat (sizeof int32_t - 1 - i))) mod 2 ^ 8))
    ∧ Forall (λ b, 0 ≤ b < 256) reversed
    ∧ getInteger_n int32_t (sizeof int32_t) (crbegin reversed) = Ok (-2)
    ∧ static_cast int32_t (most_significant_first reversed) = -2.
Proof.
  apply (reversed_split_roundtrip int32_t (-2)).
  literal_in_range.
Defined.

(** At the value [0xDEADBEEF] of [uint32_t] the reversed split is
    [DE AD BE EF] and the native one [EF BE AD DE]. *)
Example reverseByteArray_deadbeef :
  reverseByteArray uint32_t 0xDEADBEEF = Ok [0xDE; 0xAD; 0xBE; 0xEF]
  ∧ byteArray uint32_t true 0xDEADBEEF = Ok [0xEF; 0xBE; 0xAD; 0xDE].
Proof. split; reflexivity. Qed.

(** The iterator overload of [getInteger] never rejects: up to the width
    of the promoted type it returns the little-endian sum cut to [T]. *)
Lemma getInteger_n_sum (T : itype) (bytes : list Z) :
  (length bytes ≤ sizeof (promote T))%nat →
  getInteger_n T (length bytes) (front bytes)
  = Ok (static_cast T (little_endian_sum bytes)).
Proof.
  intros Hlen. unfold getInteger_n.
  apply getInteger_idx_sum; [auto with reads|exact Hlen].
Qed.

(** ** ByteArray: extracting from a scalar *)

Lemma shr_defined (T : itype) (x : Z) (k : Z) :
  k < bit_width (promote T) → shr T x k = Ok (Z.shiftr x k).
Proof.
  intros Hk. unfold shr.
  destruct (Z.ltb_spec k (bit_width (promote T))); [reflexivity|lia].
Qed.

Lemma logical_shr_nonneg (T : itype) (v k : Z) :
  in_range T v → 0 ≤ v → 0 ≤ k → logical_shr T v k = v / 2 ^ k.
Proof.
  intros Hv Hpos Hk. unfold logical_shr.
  assert (Hmax : max_value T < modulus T).
  { unfold max_value. rewrite modulus_half. unfold modulus.
    pose proof (half_modulus_pos T). destruct (is_signed T); [lia|].
    pose proof (modulus_half T) as HM. unfold modulus in HM. lia. }
  assert (Hmin : min_value T ≤ 0).
  { unfold min_value. pose proof (half_modulus_pos T). destruct (is_signed T); lia. }
  destruct Hv as [_ Hle].
  rewrite Z.mod_small by lia.
  rewrite Z.shiftr_div_pow2 by exact Hk.
  apply static_cast_id. split.
  - pose proof (Z.div_pos v (2 ^ k) Hpos). pose proof (Z.pow_pos_nonneg 2 k). lia.
  - pose proof (Z.pow_pos_nonneg 2 k).
    assert (v / 2 ^ k ≤ v) by (apply Z.div_le_upper_bound; nia). lia.
Qed.

(** C8, as the code has it. For integral [T] and [Tval], a value [v] of
    [Tval] and a byte offset not beyond the byte-width of [Tval] whose
    shift count stays below the width of the promoted source,
    [getInteger<T, Tval, offset>(v)] is [v] shifted right by [8 * offset]
    bits with the sign propagated, [v / 2 ^ (8 * offset)] rounded down,
    then narrowed to [T]; for a non-negative [v], so for every unsigned
    source, that is the logical shift.  An offset larger than the
    byte-width of the source and a non-integral source or destination are
    rejected when the program is built. *)
Theorem getInteger_value_shift (T Tval : itype) (offset : nat) (v : Z) :
  in_range Tval v →
  (offset ≤ sizeof Tval)%nat →
  8 * Z.of_nat offset < bit_width (promote Tval) →
  getInteger_value (Integral T) (Integral Tval) offset v
    = Ok (static_cast T (v / 2 ^ (8 * Z.of_nat offset)))
  ∧ (0 ≤ v →
     getInteger_value (Integral T) (Integral Tval) offset v
       = Ok (static_cast T (logical_shr Tval v (8 * Z.of_nat offset))))
  ∧ (∀ k, (sizeof Tval < k)%nat →
     getInteger_value (Integral T) (Integral Tval) k v
       = IllFormed "Shift size is larger than argument")
  ∧ (∀ k size U,
     getInteger_value (NonIntegral size) U k v
       = IllFormed "Type specified is not integral"
     ∧ getInteger_value U (NonIntegral size) k v
       = IllFormed "Type specified is not integral").
Proof.
  intros Hv Hoff Hshift.
  assert (Hval : getInteger_value (Integral T) (Integral Tval) offset v
                 = Ok (static_cast T (v / 2 ^ (8 * Z.of_nat offset)))).
  { unfold getInteger_value.
    destruct (Nat.leb_spec offset (sizeof Tval)); [|lia].
    rewrite shr_defined by exact Hshift. cbn [mbind result_bind].
    rewrite Z.shiftr_div_pow2 by lia. reflexivity. }
  split; [exact Hval|]. split; [|split].
  - intros Hpos. rewrite Hval, logical_shr_nonneg by (assumption || lia).
    reflexivity.
  - intros k Hk. unfold getInteger_value.
    destruct (Nat.leb_spec k (sizeof Tval)); [lia|reflexivity].
  - intros k size U. split; [destruct U|]; reflexivity.
Qed.

Lemma getInteger_value_shift_witness :
  getInteger_value (Integral uint8_t) (Integral uint32_t) 2 0xDEADBEEF
    = Ok (static_cast uint8_t (0xDEADBEEF / 2 ^ (8 * Z.of_nat 2)))
  ∧ (0 ≤ 0xDEADBEEF →
     getInteger_value (Integral uint8_t) (Integral uint32_t) 2 0xDEADBEEF
       = Ok (static_cast uint8_t (logical_shr uint32_t 0xDEADBEEF (8 * Z.of_nat 2))))
  ∧ (∀ k, (sizeof uint32_t < k)%nat →
     getInteger_value (Integral uint8_t) (Integral uint32_t) k 0xDEADBEEF
       = IllFormed "Shift size is larger than argument")
  ∧ (∀ k size U,
     getInteger_value (NonIntegral size) U k 0xDEADBEEF
       = IllFormed "Type specified is not integral"
     ∧ getInteger_value U (NonIntegral size) k 0xDEADBEEF
       = IllFormed "Type specified is not integral").
Proof.
  apply (getInteger_value_shift uint8_t uint32_t 2 0xDEADBEEF).
  - literal_in_range.
  - cbn. lia.
  - reflexivity.
Defined.

(** C8 as stated fails on a negative source: [getInteger<int32_t,
    int32_t, 1>(-256)] is [-1], the sign bit having been copied in, where
    the logical shift of the same bit pattern is [0x00FFFFFF]. *)
Lemma getInteger_value_not_logical :
  in_range int32_t (-256) ∧ (1 ≤ sizeof int32_t)%nat
  ∧ getInteger_value (Integral int32_t) (Integral int32_t) 1 (-256) = Ok (-1)
  ∧ static_cast int32_t (logical_shr int32_t (-256) (8 * 1)) = 0x00FFFFFF
  ∧ getInteger_value (Integral int32_t) (Integral int32_t) 1 (-256)
    ≠ Ok (static_cast int32_t (logical_shr int32_t (-256) (8 * 1))).
Proof.
  split; [literal_in_range|].
  split; [cbn; lia|].
  split; [reflexivity|]. split; [reflexivity|].
  vm_compute. discriminate.
Qed.

(** ** ByteArray: splitting arrays *)

Lemma byteArray_array_concat (T : itype) (arr : list Z) :
  arr ≠ [] →
  byteArray_array T arr = Ok (concat (object_representation T <$> arr)).
Proof.
  intros Hne. unfold byteArray_array, byteArray_n, byteArray_idx.
  rewrite <- (length_fmap (object_representation T) arr) at 1.
  rewrite mapM_seq_lookup.
  - cbn [mbind result_bind]. destruct arr as [|x arr]; [done|].
    cbn [fmap list_fmap RangedArray.merge_pack].
    rewrite merge_concat. reflexivity.
  - intros i bytes Hi. rewrite list_lookup_fmap in Hi.
    destruct (arr !! i) as [x|] eqn:Hx; [|discriminate].
    injection Hi as <-.
    rewrite (subscript_front _ _ _ Hx). cbn [mbind result_bind].
    apply byteArray_native.
Qed.

Lemma byteArray_array_empty (T : itype) :
  byteArray_array T [] = IllFormed "no matching function for call to merge()".
Proof. reflexivity. Qed.

Lemma reverseByteArray_array_concat (T : itype) (arr : list Z) :
  arr ≠ [] →
  reverseByteArray_array T arr
  = Ok (concat (object_representation T <$> reverse arr)).
Proof.
  intros Hne. unfold reverseByteArray_array.
  rewrite array_crbegin_crend. cbn [mbind result_bind].
  apply byteArray_array_concat.
  intros Hrev. apply Hne.
  rewrite <- (reverse_involutive arr), Hrev. reflexivity.
Qed.

Lemma reverse_concat_fmap {A B} (f : A → list B) (l : list A) :
  reverse (concat (f <$> l)) = concat ((reverse ∘ f) <$> reverse l).
Proof.
  induction l as [|x l IH]; [reflexivity|].
  cbn [fmap list_fmap concat]. rewrite reverse_app, IH, reverse_cons.
  rewrite fmap_app, concat_app. cbn. rewrite app_nil_r. reflexivity.
Qed.

Lemma concat_fmap_inj {A B} (f g : A → list B) (l : list A) :
  (∀ x, length (f x) = length (g x)) →
  concat (f <$> l) = concat (g <$> l) → Forall (λ x, f x = g x) l.
Proof.
  intros Hlen. induction l as [|x l IH]; intros Heq; [constructor|].
  cbn [fmap list_fmap concat] in Heq.
  apply app_inj_1 in Heq as [Hx Hl]; [|apply Hlen].
  constructor; [exact Hx|apply IH, Hl].
Qed.

Lemma concat_fmap_ext {A B} (f g : A → list B) (l : list A) :
  Forall (λ x, f x = g x) l → concat (f <$> l) = concat (g <$> l).
Proof.
  induction 1 as [|x l Hx _ IH]; [reflexivity|].
  cbn [fmap list_fmap concat]. rewrite Hx, IH. reflexivity.
Qed.

(** C10, as the code has it. For every non-empty array of elements of a
    fixed-width integer type, [reverseByteArray(arr)] is the concatenation
    of the native, least-significant-first bytes of the elements taken in
    reverse order; it is the byte-wise reversal of [byteArray(arr)]
    exactly when the bytes of every element read the same in both
    directions, and differs from it as soon as one element's do not. *)
Theorem reverseByteArray_array_reverses_elements (T : itype) (arr : list Z) :
  arr ≠ [] →
  ∃ out bytes,
    reverseByteArray_array T arr = Ok out
    ∧ byteArray_array T arr = Ok bytes
    ∧ out = concat (object_representation T <$> reverse arr)
    ∧ mapM (λ x, byteArray T true x) (reverse arr) = Ok (object_representation T <$> reverse arr)
    ∧ (out = reverse bytes ↔ Forall (λ x, palindrome (object_representation T x)) arr).
Proof.
  intros Hne.
  exists (concat (object_representation T <$> reverse arr)),
         (concat (object_representation T <$> arr)).
  split; [apply reverseByteArray_array_concat, Hne|].
  split; [apply byteArray_array_concat, Hne|].
  split; [reflexivity|].
  split.
  { apply mapM_Ok, Forall_forall. intros x _. apply byteArray_native. }
  rewrite reverse_concat_fmap. unfold palindrome. split.
  - intros Heq. apply concat_fmap_inj in Heq.
    + apply Forall_reverse in Heq. rewrite reverse_involutive in Heq.
      eapply Forall_impl; [exact Heq|]. intros x Hx. symmetry. exact Hx.
    + intros x. cbn. rewrite length_reverse. reflexivity.
  - intros Hpal. apply concat_fmap_ext, Forall_reverse.
    eapply Forall_impl; [exact Hpal|]. intros x Hx. symmetry. exact Hx.
Qed.

Lemma reverseByteArray_array_reverses_elements_witness :
  ∃ out bytes,
    reverseByteArray_array uint16_t [0x0102; 0x0304] = Ok out
    ∧ byteArray_array uint16_t [0x0102; 0x0304] = Ok bytes
    ∧ out = concat (object_representation uint16_t <$> reverse [0x0102; 0x0304])
    ∧ mapM (λ x, byteArray uint16_t true x) (reverse [0x0102; 0x0304])
      = Ok (object_representation uint16_t <$> reverse [0x0102; 0x0304])
    ∧ (out = reverse bytes
       ↔ Forall (λ x, palindrome (object_representation uint16_t x)) [0x0102; 0x0304]).
Proof.
  apply (reverseByteArray_array_reverses_elements uint16_t [0x0102; 0x0304]).
  discriminate.
Defined.

(** C10 as stated fails on elements whose bytes are palindromes: over the
    16-bit elements [0x0101, 0x0202], of byte-width two,
    [reverseByteArray] returns [02 02 01 01], which is the full byte-wise
    reversal of [byteArray]'s [01 01 02 02]. *)
Lemma reverseByteArray_array_full_reversal :
  (1 < sizeof uint16_t)%nat
  ∧ reverseByteArray_array uint16_t [0x0101; 0x0202] = Ok [0x02; 0x02; 0x01; 0x01]
  ∧ byteArray_array uint16_t [0x0101; 0x0202] = Ok [0x01; 0x01; 0x02; 0x02]
  ∧ [0x02; 0x02; 0x01; 0x01] = reverse [0x01; 0x01; 0x02; 0x02].
Proof. split; [cbn; lia|]. repeat split. Qed.

(** ** Building arrays from pointer ranges *)

(** C1, at the input [array<3>(p, p + 1)] with [p] at the start of the
    array [10 20 30]: the distance measured is 1, smaller than the length
    3 asked for, and the builder neither rejects the call nor reports an
    error: it returns the three elements [10 20 30], two of them copied
    from beyond [last]. *)
Theorem array_shorter_range_returns_a_value :
  RangedArray.range (front [10; 20; 30]) (Pointer [10; 20; 30] 1) = 1%nat
  ∧ RangedArray.array (NumericLimits0 := limits uint8_t) 3
      (front [10; 20; 30]) (Pointer [10; 20; 30] 1)
    = Ok [10; 20; 30].
Proof. split; reflexivity. Qed.

(** When the object runs out before [size] elements are read the reads
    leave it: nothing is reported then either. *)
Example array_shorter_range_runs_off :
  RangedArray.array (NumericLimits0 := limits uint8_t) 3
    (front [10; 20]) (Pointer [10; 20] 2) = Undefined.
Proof. reflexivity. Qed.

(** [array<n>(first)] over an object holding [n] elements from [first] on
    yields exactly those [n] elements. *)
Lemma array_n_pointer {T} `{!NumericLimits T} (obj : list T) (pos n : nat) :
  (pos + n ≤ length obj)%nat →
  RangedArray.array_n n (Pointer obj pos) = Ok (take n (drop pos obj)).
Proof.
  intros Hlen. unfold RangedArray.array_n.
  cbn [it_plus pointer_random_access p_object p_pos].
  apply array_pointer_short; [|exact Hlen].
  rewrite range_pointer. destruct (Nat.leb_spec pos (pos + n)); lia.
Qed.

(** ** The frame example *)

(** C2. The frame with header address [0xCE] and control [0x01] over the
    payload [DE AD BE EF FA CE B0 A7] carries the checksum
    [0xADDE + 0x4E = 0xAE2C], the little-endian 16-bit reading of the
    first two payload bytes plus [0x4E], and serialises to the 14 bytes
    [FE CE 01 DE AD BE EF FA CE B0 A7 2C AE FE], the merge of the header's
    3 bytes, the payload's 8 and the footer's 3. *)
Theorem my_frame_serialize :
  ∃ frame h d f,
    my_frame = Ok frame
    ∧ header frame = {| address := 0xCE; control := 0x01 |}
    ∧ info (data frame) = [0xDE; 0xAD; 0xBE; 0xEF; 0xFA; 0xCE; 0xB0; 0xA7]
    ∧ getInteger_n uint16_t 2 (take 2 (info (data frame))) = Ok 0xADDE
    ∧ little_endian_sum (take 2 (info (data frame))) = 0xADDE
    ∧ fcs (footer frame) = 0xADDE + 0x4E
    ∧ fcs (footer frame) = 0xAE2C
    ∧ BasicHeader_serialize (header frame) = Ok h
    ∧ h = [0xFE; 0xCE; 0x01]
    ∧ BasicData_serialize (data frame) = Ok d
    ∧ d = [0xDE; 0xAD; 0xBE; 0xEF; 0xFA; 0xCE; 0xB0; 0xA7]
    ∧ BasicFooter_serialize (footer frame) = Ok f
    ∧ f = [0x2C; 0xAE; 0xFE]
    ∧ serialize frame = RangedArray.merge h [d; f]
    ∧ serialize frame
      = Ok [0xFE; 0xCE; 0x01; 0xDE; 0xAD; 0xBE; 0xEF; 0xFA; 0xCE; 0xB0; 0xA7;
            0x2C; 0xAE; 0xFE]
    ∧ length [0xFE; 0xCE; 0x01; 0xDE; 0xAD; 0xBE; 0xEF; 0xFA; 0xCE; 0xB0; 0xA7;
              0x2C; 0xAE; 0xFE] = 14%nat.
Proof.
  eexists {| header := {| address := 0xCE; control := 0x01 |};
             data := {| info := [0xDE; 0xAD; 0xBE; 0xEF; 0xFA; 0xCE; 0xB0; 0xA7] |};
             footer := {| fcs := 0xAE2C |} |}, _, _, _.
  repeat split.
Qed.

(** [BasicData::operator uint64_t()] gives back the value whose bytes the
    payload holds. *)
Lemma BasicData_convert_roundtrip (v : Z) :
  in_range uint64_t v →
  BasicData_convert uint64_t {| info := object_representation uint64_t v |} = Ok v.
Proof.
  intros Hv. unfold BasicData_convert, getInteger_n. cbn [info].
  rewrite <- (length_object_representation uint64_t v) at 1.
  rewrite getInteger_idx_sum.
  - rewrite little_endian_sum_object, static_cast_mod_modulus.
    rewrite static_cast_id by exact Hv. reflexivity.
  - auto with reads.
  - rewrite length_object_representation. apply sizeof_promote.
Qed.

(** * Further properties of the codec *)

(** ** RangedArray: index bounds *)

Lemma indexInRange_loop_Forall (min max : nat) (sequence : list nat) :
  RangedArray.indexInRange_loop min max sequence = true
  ↔ Forall (λ index, (min ≤ index ≤ max)%nat) sequence.
Proof.
  induction sequence as [|index rest IH]; cbn [RangedArray.indexInRange_loop].
  - split; [constructor|reflexivity].
  - destruct (Nat.ltb_spec index min); destruct (Nat.ltb_spec max index);
      cbn [orb]; rewrite ?IH, Forall_cons; split;
      try discriminate; try (intros [? _]; lia); intuition lia.
Qed.

(** X1. For a non-empty index pack [indexInRange] answers whether every index
    lies between [min] and [max], bounds included; the test [min > max]
    at its head never changes the answer. *)
Theorem indexInRange_all_between (min max : nat) (sequence : list nat) :
  sequence ≠ [] →
  ∃ b, RangedArray.indexInRange min max sequence = Ok b
    ∧ b = RangedArray.indexInRange_loop min max sequence
    ∧ (b = true ↔ Forall (λ index, (min ≤ index ≤ max)%nat) sequence).
Proof.
  intros Hne. destruct sequence as [|index rest]; [done|].
  unfold RangedArray.indexInRange.
  destruct (Nat.ltb_spec max min) as [Hlt|Hle].
  - exists false. split; [reflexivity|].
    assert (Hloop : RangedArray.indexInRange_loop min max (index :: rest) = false).
    { cbn [RangedArray.indexInRange_loop].
      destruct (Nat.ltb_spec index min); [reflexivity|].
      destruct (Nat.ltb_spec max index); [reflexivity|lia]. }
    split; [symmetry; exact Hloop|].
    rewrite <- indexInRange_loop_Forall, Hloop. reflexivity.
  - eexists. split; [reflexivity|]. split; [reflexivity|].
    apply indexInRange_loop_Forall.
Qed.

Lemma indexInRange_all_between_witness :
  ∃ b, RangedArray.indexInRange 1 4 [1; 3; 4]%nat = Ok b
    ∧ b = RangedArray.indexInRange_loop 1 4 [1; 3; 4]%nat
    ∧ (b = true ↔ Forall (λ index, (1 ≤ index ≤ 4)%nat) [1; 3; 4]%nat).
Proof. apply (indexInRange_all_between 1 4 [1; 3; 4]%nat). discriminate. Defined.

(** X2. The indices of [std::make_index_sequence<n>] all lie in [0, max]
    exactly when [n] is at most [max + 1]. *)
Theorem indexInRange_make_index_sequence (max n : nat) :
  (0 < n)%nat →
  RangedArray.indexInRange 0 max (seq 0 n) = Ok (n <=? S max)%nat.
Proof.
  intros Hn. unfold RangedArray.indexInRange.
  destruct (seq 0 n) as [|i0 rest] eqn:Hseq; [destruct n; [lia|discriminate]|].
  rewrite <- Hseq. cbn [Nat.ltb Nat.leb]. f_equal.
  pose proof (indexInRange_loop_Forall 0 max (seq 0 n)) as Hb.
  destruct (Nat.leb_spec n (S max)) as [Hle|Hgt].
  - apply Hb, Forall_forall. intros i Hi%elem_of_seq. lia.
  - destruct (RangedArray.indexInRange_loop 0 max (seq 0 n)); [|reflexivity].
    exfalso. assert (Hall : Forall (λ index, (0 ≤ index ≤ max)%nat) (seq 0 n))
      by (apply Hb; reflexivity).
    rewrite Forall_forall in Hall.
    specialize (Hall (n - 1)%nat). rewrite elem_of_seq in Hall. lia.
Qed.

Lemma indexInRange_make_index_sequence_witness :
  RangedArray.indexInRange 0 7 (seq 0 8) = Ok (8 <=? 8)%nat.
Proof. apply (indexInRange_make_index_sequence 7 8). lia. Defined.

(** ** RangedArray: the build contract *)

(** X3. [array<n>(first)], and [array<n>(first, first + n)] which it calls,
    over an object that holds [n] elements from [first] on, return
    exactly the [n] elements of [[first, first + n)]. *)
Theorem array_n_builds_range {T} `{!NumericLimits T} (obj : list T) (pos n : nat) :
  (pos + n ≤ length obj)%nat →
  RangedArray.array_n n (Pointer obj pos) = Ok (take n (drop pos obj))
  ∧ RangedArray.array n (Pointer obj pos) (it_plus (Pointer obj pos) n)
    = Ok (take n (drop pos obj))
  ∧ (∀ i, (i < n)%nat → take n (drop pos obj) !! i = obj !! (pos + i)%nat).
Proof.
  intros Hlen. split; [apply array_n_pointer, Hlen|].
  split; [apply (array_n_pointer obj pos n), Hlen|].
  intros i Hi. rewrite lookup_take_lt, lookup_drop by exact Hi. reflexivity.
Qed.

Lemma array_n_builds_range_witness :
  RangedArray.array_n (NumericLimits0 := limits uint8_t) 2 (Pointer [10; 20; 30; 40] 1)
    = Ok (take 2 (drop 1 [10; 20; 30; 40]))
  ∧ RangedArray.array (NumericLimits0 := limits uint8_t) 2
      (Pointer [10; 20; 30; 40] 1) (it_plus (Pointer [10; 20; 30; 40] 1) 2)
    = Ok (take 2 (drop 1 [10; 20; 30; 40]))
  ∧ (∀ i, (i < 2)%nat →
       take 2 (drop 1 [10; 20; 30; 40]) !! i = [10; 20; 30; 40] !! (1 + i)%nat).
Proof.
  apply (array_n_builds_range (NumericLimits0 := limits uint8_t) [10; 20; 30; 40] 1 2).
  cbn. lia.
Defined.

(** X4. The distance between two pointers is measured in either direction,
    and [last] serves for nothing else: once the distance is at most
    [size], [array<size>(first, last)] copies [size] elements forward from
    [first], also when [last] lies before [first]. *)
Theorem array_distance_either_direction {T} `{!NumericLimits T}
    (obj : list T) (a b size : nat) :
  (a - b ≤ size)%nat → (b - a ≤ size)%nat → (a + size ≤ length obj)%nat →
  RangedArray.range (Pointer obj a) (Pointer obj b)
    = RangedArray.range (Pointer obj b) (Pointer obj a)
  ∧ RangedArray.array size (Pointer obj a) (Pointer obj b)
    = Ok (take size (drop a obj)).
Proof.
  intros Hab Hba Hlen. split.
  - rewrite !range_pointer.
    destruct (Nat.leb_spec a b); destruct (Nat.leb_spec b a); lia.
  - apply array_pointer_short; [|exact Hlen].
    rewrite range_pointer. destruct (Nat.leb_spec a b); lia.
Qed.

Lemma array_distance_either_direction_witness :
  RangedArray.range (Pointer [10; 20; 30; 40] 2) (Pointer [10; 20; 30; 40] 0)
    = RangedArray.range (Pointer [10; 20; 30; 40] 0) (Pointer [10; 20; 30; 40] 2)
  ∧ RangedArray.array (NumericLimits0 := limits uint8_t) 2
      (Pointer [10; 20; 30; 40] 2) (Pointer [10; 20; 30; 40] 0)
    = Ok (take 2 (drop 2 [10; 20; 30; 40])).
Proof.
  apply (array_distance_either_direction (NumericLimits0 := limits uint8_t)
           [10; 20; 30; 40] 2 0 2); cbn; lia.
Defined.

(** ** ByteArray: arrays and several values *)

Lemma object_representation_bounds (T : itype) (v : Z) :
  Forall (λ b, 0 ≤ b < 256) (object_representation T v).
Proof.
  unfold object_representation. apply Forall_fmap, Forall_forall.
  intros i _. apply byte_of_bounds.
Qed.

Lemma object_representation_uint8 (b : Z) :
  0 ≤ b < 256 → object_representation uint8_t b = [b].
Proof.
  intros Hb. unfold object_representation. cbn. f_equal.
  rewrite byte_of_div_mod. cbn. rewrite Z.div_1_r. apply Z.mod_small. lia.
Qed.

Lemma concat_object_representation_uint8 (l : list Z) :
  Forall (λ b, 0 ≤ b < 256) l → concat (object_representation uint8_t <$> l) = l.
Proof.
  induction 1 as [|b l Hb _ IH]; [reflexivity|].
  cbn [fmap list_fmap concat]. rewrite object_representation_uint8 by exact Hb.
  cbn. f_equal. exact IH.
Qed.

Lemma length_concat_object_representation (T : itype) (arr : list Z) :
  length (concat (object_representation T <$> arr)) = (length arr * sizeof T)%nat.
Proof.
  induction arr as [|x arr IH]; [reflexivity|].
  cbn [fmap list_fmap concat length].
  rewrite length_app, length_object_representation, IH. lia.
Qed.

Lemma Forall_concat_object_representation (T : itype) (arr : list Z) :
  Forall (λ b, 0 ≤ b < 256) (concat (object_representation T <$> arr)).
Proof.
  induction arr as [|x arr IH]; [constructor|].
  cbn [fmap list_fmap concat]. apply Forall_app. split; [|exact IH].
  apply object_representation_bounds.
Qed.

Lemma sizeof_pos (T : itype) : (0 < sizeof T)%nat.
Proof. destruct T as [s []]; cbn; lia. Qed.

Lemma concat_lookup_chunk {A} (n : nat) (ls : list (list A)) (j i : nat) l x :
  Forall (λ k, length k = n) ls →
  ls !! j = Some l → l !! i = Some x → concat ls !! (j * n + i)%nat = Some x.
Proof.
  intros Hn. revert j. induction Hn as [|k ls Hk _ IH]; intros j Hj Hi.
  - discriminate.
  - cbn [concat]. destruct j as [|j].
    + injection Hj as ->. rewrite lookup_app_l by (eapply lookup_lt_Some, Hi).
      exact Hi.
    + rewrite lookup_app_r by lia.
      replace (S j * n + i - length k)%nat with (j * n + i)%nat by lia.
      apply IH; assumption.
Qed.

Lemma byteArray_array_bytes (l : list Z) :
  l ≠ [] → Forall (λ b, 0 ≤ b < 256) l → byteArray_array uint8_t l = Ok l.
Proof.
  intros Hne Hl. rewrite byteArray_array_concat by exact Hne.
  rewrite concat_object_representation_uint8 by exact Hl. reflexivity.
Qed.

Lemma object_representation_nonempty (T : itype) (v : Z) :
  object_representation T v ≠ [].
Proof.
  intros Hnil. pose proof (length_object_representation T v) as Hlen.
  rewrite Hnil in Hlen. pose proof (sizeof_pos T). cbn in Hlen. lia.
Qed.

(** The value a [T] holds is what its bytes assemble to. *)
Lemma assemble_object_representation (T : itype) (v : Z) :
  in_range T v → static_cast T (little_endian_sum (object_representation T v)) = v.
Proof.
  intros Hv. rewrite little_endian_sum_object, static_cast_mod_modulus.
  apply static_cast_id. exact Hv.
Qed.

(** Assembling from a pointer somewhere inside a buffer. *)
Lemma getInteger_n_at (T : itype) (obj bytes : list Z) (pos : nat) :
  (∀ j b, bytes !! j = Some b → obj !! (pos + j)%nat = Some b) →
  (length bytes ≤ sizeof (promote T))%nat →
  getInteger_n T (length bytes) (Pointer obj pos)
  = Ok (static_cast T (little_endian_sum bytes)).
Proof.
  intros Hread Hlen. unfold getInteger_n.
  apply getInteger_idx_sum; [|exact Hlen].
  intros j b Hb. rewrite subscript_pointer.
  apply lookup_result_Some, Hread, Hb.
Qed.

(** X5. [byteArray(arr)] over a non-empty [std::array<T, size>] is the
    concatenation of the native bytes of its elements in element order,
    [size * sizeof(T)] bytes as its return type declares: byte [j] of
    element [i] sits at place [i * sizeof(T) + j]. *)
Theorem byteArray_array_per_element (T : itype) (arr : list Z) :
  arr ≠ [] →
  ∃ bytes, byteArray_array T arr = Ok bytes
    ∧ bytes = concat ((λ x, object_representation T x) <$> arr)
    ∧ mapM (λ x, byteArray T true x) arr = Ok ((λ x, object_representation T x) <$> arr)
    ∧ length bytes = (length arr * sizeof T)%nat
    ∧ (∀ i j x, arr !! i = Some x → (j < sizeof T)%nat →
         bytes !! (i * sizeof T + j)%nat
         = Some ((x / 2 ^ (8 * Z.of_nat j)) mod 2 ^ 8)).
Proof.
  intros Hne. eexists. split; [apply byteArray_array_concat, Hne|].
  split; [reflexivity|].
  split; [apply mapM_Ok, Forall_forall; intros x _; apply byteArray_native|].
  split; [apply length_concat_object_representation|].
  intros i j x Hx Hj.
  apply (concat_lookup_chunk (sizeof T) _ i j (object_representation T x)).
  - apply Forall_fmap, Forall_forall. intros y _. apply length_object_representation.
  - rewrite list_lookup_fmap, Hx. reflexivity.
  - rewrite lookup_object_representation by exact Hj.
    rewrite byte_of_div_mod. reflexivity.
Qed.

Lemma byteArray_array_per_element_witness :
  ∃ bytes, byteArray_array uint16_t [0x0102; 0x0304] = Ok bytes
    ∧ bytes = concat ((λ x, object_representation uint16_t x) <$> [0x0102; 0x0304])
    ∧ mapM (λ x, byteArray uint16_t true x) [0x0102; 0x0304]
      = Ok ((λ x, object_representation uint16_t x) <$> [0x0102; 0x0304])
    ∧ length bytes = (length [0x0102; 0x0304] * sizeof uint16_t)%nat
    ∧ (∀ i j x, [0x0102; 0x0304] !! i = Some x → (j < sizeof uint16_t)%nat →
         bytes !! (i * sizeof uint16_t + j)%nat
         = Some ((x / 2 ^ (8 * Z.of_nat j)) mod 2 ^ 8)).
Proof.
  apply (byteArray_array_per_element uint16_t [0x0102; 0x0304]). discriminate.
Defined.

(** X6. Every element of an array can be read back from the bytes
    [byteArray(arr)] produces: [getInteger<T, sizeof(T)>] from the place
    [i * sizeof(T)] returns element [i]. *)
Theorem byteArray_array_element_roundtrip (T : itype) (arr : list Z) (i : nat) (x : Z) :
  arr !! i = Some x → in_range T x →
  ∃ bytes, byteArray_array T arr = Ok bytes
    ∧ getInteger_n T (sizeof T) (Pointer bytes (i * sizeof T)) = Ok x.
Proof.
  intros Hx Hrange. eexists. split.
  { apply byteArray_array_concat. intros ->. discriminate. }
  rewrite <- (length_object_representation T x) at 1.
  rewrite getInteger_n_at.
  - rewrite assemble_object_representation by exact Hrange. reflexivity.
  - intros j b Hb.
    apply (concat_lookup_chunk (sizeof T) _ i j (object_representation T x)).
    + apply Forall_fmap, Forall_forall. intros y _. apply length_object_representation.
    + rewrite list_lookup_fmap, Hx. reflexivity.
    + exact Hb.
  - rewrite length_object_representation. apply sizeof_promote.
Qed.

Lemma byteArray_array_element_roundtrip_witness :
  ∃ bytes, byteArray_array int16_t [0x0102; -2; 7] = Ok bytes
    ∧ getInteger_n int16_t (sizeof int16_t) (Pointer bytes (1 * sizeof int16_t)) = Ok (-2).
Proof.
  apply (byteArray_array_element_roundtrip int16_t [0x0102; -2; 7] 1 (-2)).
  - reflexivity.
  - literal_in_range.
Defined.

(** X7. Splitting an array that already consists of bytes changes nothing. *)
Theorem byteArray_array_of_bytes (arr : list Z) :
  arr ≠ [] → Forall (λ b, 0 ≤ b < 256) arr →
  byteArray_array uint8_t arr = Ok arr.
Proof. apply byteArray_array_bytes. Qed.

Lemma byteArray_array_of_bytes_witness :
  byteArray_array uint8_t [0xDE; 0xAD] = Ok [0xDE; 0xAD].
Proof.
  apply (byteArray_array_of_bytes [0xDE; 0xAD]); [discriminate|].
  repeat constructor; lia.
Defined.

(** X8. Over an array of bytes [reverseByteArray] is the plain reversal, and
    applying it twice gives the array back. *)
Theorem reverseByteArray_array_of_bytes (arr : list Z) :
  arr ≠ [] → Forall (λ b, 0 ≤ b < 256) arr →
  reverseByteArray_array uint8_t arr = Ok (reverse arr)
  ∧ (r ← reverseByteArray_array uint8_t arr; reverseByteArray_array uint8_t r) = Ok arr.
Proof.
  intros Hne Hb.
  assert (Hrev : ∀ l, l ≠ [] → Forall (λ b, 0 ≤ b < 256) l →
            reverseByteArray_array uint8_t l = Ok (reverse l)).
  { intros l Hl Hbl. rewrite reverseByteArray_array_concat by exact Hl.
    rewrite concat_object_representation_uint8; [reflexivity|].
    apply Forall_reverse. exact Hbl. }
  split; [apply Hrev; assumption|].
  rewrite Hrev by assumption. cbn [mbind result_bind].
  rewrite Hrev.
  - rewrite reverse_involutive. reflexivity.
  - intros Hnil. apply Hne. rewrite <- (reverse_involutive arr), Hnil. reflexivity.
  - apply Forall_reverse. exact Hb.
Qed.

Lemma reverseByteArray_array_of_bytes_witness :
  reverseByteArray_array uint8_t [1; 2; 3] = Ok (reverse [1; 2; 3])
  ∧ (r ← reverseByteArray_array uint8_t [1; 2; 3]; reverseByteArray_array uint8_t r)
    = Ok [1; 2; 3].
Proof.
  apply (reverseByteArray_array_of_bytes [1; 2; 3]); [discriminate|].
  repeat constructor; lia.
Defined.

Lemma byteArray2_scalars (T1 T2 : itype) (v1 v2 : Z) :
  byteArray2 (Scalar T1 v1) (Scalar T2 v2)
  = Ok (object_representation T1 v1 ++ object_representation T2 v2).
Proof.
  unfold byteArray2. cbn [byteArray1]. rewrite !byteArray_native.
  cbn [mbind result_bind]. apply merge2_app.
Qed.

Lemma byteArray2_arrays_of_bytes (a b : list Z) :
  a ≠ [] → b ≠ [] →
  Forall (λ x, 0 ≤ x < 256) a → Forall (λ x, 0 ≤ x < 256) b →
  byteArray2 (Array uint8_t a) (Array uint8_t b) = Ok (a ++ b).
Proof.
  intros Ha Hb Hra Hrb. unfold byteArray2. cbn [byteArray1].
  rewrite !byteArray_array_bytes by assumption.
  cbn [mbind result_bind]. apply merge2_app.
Qed.

Lemma byteArray3_scalars (T1 T2 T3 : itype) (v1 v2 v3 : Z) :
  byteArray3 (Scalar T1 v1) (Scalar T2 v2) (Scalar T3 v3)
  = Ok (object_representation T1 v1 ++ object_representation T2 v2
        ++ object_representation T3 v3).
Proof.
  unfold byteArray3. rewrite byteArray2_scalars. cbn [mbind result_bind byteArray1].
  rewrite byteArray_native. cbn [mbind result_bind].
  rewrite byteArray2_arrays_of_bytes.
  - rewrite <- app_assoc. reflexivity.
  - intros Hnil. apply app_eq_nil in Hnil as [Hnil _].
    exact (object_representation_nonempty _ _ Hnil).
  - apply object_representation_nonempty.
  - apply Forall_app. split; apply object_representation_bounds.
  - apply object_representation_bounds.
Qed.

(** X9. [byteArray] over two and over three values of independent integer
    types returns their native byte groups one after the other, in
    argument order. *)
Theorem byteArray_values_in_argument_order (T1 T2 T3 : itype) (v1 v2 v3 : Z) :
  byteArray2 (Scalar T1 v1) (Scalar T2 v2)
    = Ok (object_representation T1 v1 ++ object_representation T2 v2)
  ∧ byteArray3 (Scalar T1 v1) (Scalar T2 v2) (Scalar T3 v3)
    = Ok (object_representation T1 v1 ++ object_representation T2 v2
          ++ object_representation T3 v3).
Proof.
  split; [apply byteArray2_scalars|apply byteArray3_scalars].
Qed.

Lemma byteArray1_output (x : value) (a : list Z) :
  byteArray1 x = Ok a →
  length a = csizeof (type_of x) ∧ a ≠ [] ∧ Forall (λ b, 0 ≤ b < 256) a.
Proof.
  destruct x as [T v|T arr]; cbn [byteArray1 type_of csizeof].
  - rewrite byteArray_native. intros [= <-].
    split; [apply length_object_representation|].
    split; [apply object_representation_nonempty|apply object_representation_bounds].
  - destruct arr as [|x arr]; [discriminate|].
    assert (Hlen : (0 < length (x :: arr))%nat) by (cbn; lia).
    revert Hlen. generalize (x :: arr). clear x arr. intros arr Hlen.
    rewrite byteArray_array_concat by (intros ->; cbn in Hlen; lia).
    intros [= <-].
    split; [apply length_concat_object_representation|].
    split; [|apply Forall_concat_object_representation].
    intros Hnil. pose proof (length_concat_object_representation T arr) as Hcat.
    rewrite Hnil in Hcat. pose proof (sizeof_pos T). cbn [length] in Hcat. nia.
Qed.

Lemma byteArray2_output (x1 x2 : value) (r : list Z) :
  byteArray2 x1 x2 = Ok r →
  length r = (csizeof (type_of x1) + csizeof (type_of x2))%nat
  ∧ r ≠ [] ∧ Forall (λ b, 0 ≤ b < 256) r.
Proof.
  unfold byteArray2.
  destruct (byteArray1 x1) as [a| |] eqn:Ha; [|discriminate..].
  destruct (byteArray1 x2) as [b| |] eqn:Hb; [|discriminate..].
  cbn [mbind result_bind]. rewrite merge2_app. intros [= <-].
  apply byteArray1_output in Ha as (Hla & Hna & Hra).
  apply byteArray1_output in Hb as (Hlb & Hnb & Hrb).
  split; [rewrite length_app; lia|].
  split; [|apply Forall_app; split; assumption].
  intros Hnil. apply app_eq_nil in Hnil as [Hnil _]. exact (Hna Hnil).
Qed.

(** X10. Whatever the arguments, scalars or arrays, the arrays that
    [byteArray(value1, value2)] and [byteArray(value1, value2, value3)]
    return have the lengths their return types declare:
    [sizeof(T1) + sizeof(T2)] and [totalSize<T1, T2, T3>()]. *)
Theorem byteArray_length_totalSize (x1 x2 x3 : value) (r2 r3 : list Z) :
  byteArray2 x1 x2 = Ok r2 → byteArray3 x1 x2 x3 = Ok r3 →
  length r2 = (csizeof (type_of x1) + csizeof (type_of x2))%nat
  ∧ length r2 = totalSize [type_of x1; type_of x2]
  ∧ length r3 = totalSize [type_of x1; type_of x2; type_of x3].
Proof.
  intros H2 H3.
  pose proof (byteArray2_output _ _ _ H2) as (Hl2 & Hn2 & Hr2).
  split; [exact Hl2|]. split; [exact Hl2|].
  unfold byteArray3 in H3. rewrite H2 in H3. cbn [mbind result_bind] in H3.
  destruct (byteArray1 x3) as [a3| |] eqn:Ha3; [|discriminate..].
  cbn [mbind result_bind] in H3.
  apply byteArray1_output in Ha3 as (Hl3 & Hn3 & Hr3).
  rewrite byteArray2_arrays_of_bytes in H3 by assumption.
  injection H3 as <-. rewrite length_app. cbn. lia.
Qed.

Lemma byteArray_length_totalSize_witness :
  length [0xFE; 0x01; 0x02; 0x03]
    = Nat.add (csizeof (type_of (Scalar uint8_t 0xFE)))
              (csizeof (type_of (Array uint8_t [0x01; 0x02; 0x03])))
  ∧ length [0xFE; 0x01; 0x02; 0x03]
    = totalSize [type_of (Scalar uint8_t 0xFE); type_of (Array uint8_t [0x01; 0x02; 0x03])]
  ∧ length [0xFE; 0x01; 0x02; 0x03; 0x2C; 0xAE]
    = totalSize [type_of (Scalar uint8_t 0xFE); type_of (Array uint8_t [0x01; 0x02; 0x03]);
                 type_of (Scalar uint16_t 0xAE2C)].
Proof.
  apply (byteArray_length_totalSize (Scalar uint8_t 0xFE)
           (Array uint8_t [0x01; 0x02; 0x03]) (Scalar uint16_t 0xAE2C));
    reflexivity.
Defined.

(** X11. Two fields written with [byteArray(value1, value2)] are read back by
    position: the first with [getInteger] from the start of the buffer,
    the second from the place [sizeof(T1)]. *)
Theorem byteArray2_fields_roundtrip (T1 T2 : itype) (v1 v2 : Z) :
  in_range T1 v1 → in_range T2 v2 →
  ∃ bytes, byteArray2 (Scalar T1 v1) (Scalar T2 v2) = Ok bytes
    ∧ length bytes = (sizeof T1 + sizeof T2)%nat
    ∧ getInteger_n T1 (sizeof T1) (front bytes) = Ok v1
    ∧ getInteger_n T2 (sizeof T2) (Pointer bytes (sizeof T1)) = Ok v2.
Proof.
  intros H1 H2. eexists. split; [apply byteArray2_scalars|].
  split; [rewrite length_app, !length_object_representation; reflexivity|].
  split.
  - rewrite <- (length_object_representation T1 v1) at 1. unfold front.
    rewrite getInteger_n_at.
    + rewrite assemble_object_representation by exact H1. reflexivity.
    + intros j b Hb. cbn [plus]. apply lookup_app_l_Some. exact Hb.
    + rewrite length_object_representation. apply sizeof_promote.
  - rewrite <- (length_object_representation T2 v2) at 1.
    rewrite getInteger_n_at.
    + rewrite assemble_object_representation by exact H2. reflexivity.
    + intros j b Hb. rewrite lookup_app_r by (rewrite length_object_representation; lia).
      rewrite length_object_representation.
      replace (sizeof T1 + j - sizeof T1)%nat with j by lia. exact Hb.
    + rewrite length_object_representation. apply sizeof_promote.
Qed.

Lemma byteArray2_fields_roundtrip_witness :
  ∃ bytes, byteArray2 (Scalar uint16_t 0xAE2C) (Scalar int32_t (-5)) = Ok bytes
    ∧ length bytes = (sizeof uint16_t + sizeof int32_t)%nat
    ∧ getInteger_n uint16_t (sizeof uint16_t) (front bytes) = Ok 0xAE2C
    ∧ getInteger_n int32_t (sizeof int32_t) (Pointer bytes (sizeof uint16_t)) = Ok (-5).
Proof.
  apply (byteArray2_fields_roundtrip uint16_t int32_t 0xAE2C (-5)); literal_in_range.
Defined.

(** X12. Two values of a type split into the same bytes only when they are
    the same value. *)
Theorem byteArray_injective (T : itype) (v w : Z) :
  in_range T v → in_range T w →
  (byteArray T true v = byteArray T true w ↔ v = w).
Proof.
  intros Hv Hw. split; [|intros ->; reflexivity].
  rewrite !byteArray_native. intros [= Heq].
  rewrite <- (assemble_object_representation T v Hv).
  rewrite <- (assemble_object_representation T w Hw).
  rewrite Heq. reflexivity.
Qed.

Lemma byteArray_injective_witness :
  byteArray int16_t true (-2) = byteArray int16_t true 0xFE ↔ -2 = 0xFE.
Proof. apply (byteArray_injective int16_t (-2) 0xFE); literal_in_range. Defined.

(** ** ByteArray: assembling within and beyond the width *)

Lemma little_endian_sum_below (bytes : list Z) (n : nat) :
  Forall (λ b, 0 ≤ b < 256) bytes → (length bytes ≤ n)%nat →
  0 ≤ little_endian_sum bytes < 2 ^ (8 * Z.of_nat n).
Proof.
  intros Hb Hlen. pose proof (little_endian_sum_bounds bytes Hb) as Hsum.
  assert (2 ^ (8 * Z.of_nat (length bytes)) ≤ 2 ^ (8 * Z.of_nat n))
    by (apply Z.pow_le_mono_r; lia).
  lia.
Qed.

(** X13. Within the width of [T], both overloads of [getInteger] return the
    little-endian sum of the bytes converted to [T]; the conversion
    changes nothing when [T] is unsigned or when fewer bytes than
    [sizeof(T)] are read, so a short read is never sign-extended. *)
Theorem getInteger_within_width (T : itype) (bytes : list Z) :
  Forall (λ b, 0 ≤ b < 256) bytes →
  (length bytes ≤ sizeof T)%nat →
  getInteger_n T (length bytes) (front bytes)
    = Ok (static_cast T (little_endian_sum bytes))
  ∧ getInteger_array T bytes = Ok (static_cast T (little_endian_sum bytes))
  ∧ (is_signed T = false ∨ (length bytes < sizeof T)%nat →
     static_cast T (little_endian_sum bytes) = little_endian_sum bytes).
Proof.
  intros Hb Hlen.
  split; [apply getInteger_n_sum; pose proof (sizeof_promote T); lia|].
  split; [apply getInteger_array_sum, Hlen|].
  intros [Hu|Hlt]; [apply static_cast_little_endian_sum; assumption|].
  apply static_cast_id.
  pose proof (little_endian_sum_below bytes (sizeof T - 1) Hb ltac:(lia)) as Hsum.
  unfold in_range, min_value, max_value.
  pose proof (half_modulus_pos T) as Hh. pose proof (modulus_half T) as HM.
  unfold modulus in HM.
  assert (Hpow : 2 ^ (8 * Z.of_nat (sizeof T - 1)) ≤ 2 ^ (bit_width T - 1)).
  { apply Z.pow_le_mono_r; unfold bit_width; lia. }
  destruct (is_signed T); lia.
Qed.

Lemma getInteger_within_width_witness :
  getInteger_n int32_t (length [0xFF; 0xFF]) (front [0xFF; 0xFF])
    = Ok (static_cast int32_t (little_endian_sum [0xFF; 0xFF]))
  ∧ getInteger_array int32_t [0xFF; 0xFF]
    = Ok (static_cast int32_t (little_endian_sum [0xFF; 0xFF]))
  ∧ (is_signed int32_t = false ∨ (length [0xFF; 0xFF] < sizeof int32_t)%nat →
     static_cast int32_t (little_endian_sum [0xFF; 0xFF]) = little_endian_sum [0xFF; 0xFF]).
Proof.
  apply (getInteger_within_width int32_t [0xFF; 0xFF]).
  - repeat constructor; lia.
  - cbn. lia.
Defined.

Lemma promote_narrow (T : itype) : (sizeof T < 4)%nat → promote T = int32_t.
Proof.
  intros HT. unfold promote.
  destruct (Nat.ltb_spec (sizeof T) 4); [reflexivity|lia].
Qed.

Lemma narrow_unsigned_limits (T : itype) :
  is_signed T = false → (sizeof T < 4)%nat →
  min_value T = 0 ∧ 255 ≤ max_value T ∧ max_value T ≤ 65535.
Proof.
  destruct T as [[] []]; cbn; intros Hu HT; try discriminate; try lia;
    (split; [reflexivity|split; vm_compute; discriminate]).
Qed.

(** Adding a byte shifted into an [int] to a value of at most 16 bits
    stays within [int]. *)
Lemma int_sum_in_range (r b : Z) (k : nat) :
  0 ≤ r ≤ 65535 → 0 ≤ b < 256 → (k < 4)%nat →
  in_range int32_t (r + static_cast int32_t (b * 2 ^ (8 * Z.of_nat k))).
Proof.
  intros Hr Hb Hk. unfold in_range, static_cast.
  change (is_signed int32_t) with true. cbv iota.
  change (min_value int32_t) with (-2147483648).
  change (max_value int32_t) with 2147483647.
  change (modulus int32_t) with 4294967296.
  change (2 ^ (bit_width int32_t - 1)) with 2147483648.
  destruct k as [|[|[|[|k]]]]; [| | | |lia].
  - change (2 ^ (8 * Z.of_nat 0)) with 1. Z.div_mod_to_equations. lia.
  - change (2 ^ (8 * Z.of_nat 1)) with 256. Z.div_mod_to_equations. lia.
  - change (2 ^ (8 * Z.of_nat 2)) with 65536. Z.div_mod_to_equations. lia.
  - change (2 ^ (8 * Z.of_nat 3)) with 16777216. Z.div_mod_to_equations. lia.
Qed.

(** X14. The iterator overload [getInteger<T, size>(first)] accepts any
    count up to the width of the promoted type: for an unsigned [T] of
    one or two bytes it takes up to four bytes without rejection and
    returns their little-endian sum modulo [2 ^ (8 * sizeof(T))], only
    the low bits being kept.  Every addition on the way is one of [int]s
    that stays within [int]: before byte [k] is added, [return_value] is
    what [getInteger<T, k>] returns, and its sum with the shifted byte
    is an [int]. *)
Theorem getInteger_n_keeps_low_bits (T : itype) (bytes : list Z) :
  is_signed T = false → (sizeof T < 4)%nat →
  (length bytes ≤ 4)%nat → Forall (λ b, 0 ≤ b < 256) bytes →
  getInteger_n T (length bytes) (front bytes)
    = Ok (little_endian_sum bytes mod modulus T)
  ∧ (∀ k b, bytes !! k = Some b →
       ∃ r s, getInteger_n T k (front bytes) = Ok r
         ∧ shl T (static_cast T b) (8 * Z.of_nat k) = Ok s
         ∧ in_range int32_t (r + s)).
Proof.
  intros Hu HT Hlen Hb.
  pose proof (promote_narrow T HT) as HP.
  destruct (narrow_unsigned_limits T Hu HT) as (Hmin & Hmax255 & Hmax).
  split.
  { rewrite getInteger_n_sum by (rewrite HP; cbn; lia).
    unfold static_cast. rewrite Hu. reflexivity. }
  intros k b Hkb.
  pose proof (lookup_lt_Some _ _ _ Hkb) as Hk.
  assert (Hbyte : 0 ≤ b < 256).
  { rewrite Forall_forall in Hb. apply Hb. eapply list_elem_of_lookup_2, Hkb. }
  exists (static_cast T (little_endian_sum (take k bytes))),
         (static_cast int32_t (b * 2 ^ (8 * Z.of_nat k))).
  split; [|split].
  - pose proof (getInteger_n_at T bytes (take k bytes) 0) as Hread.
    rewrite length_take_le in Hread by lia. unfold front. apply Hread.
    + intros j x Hx. apply lookup_take_Some in Hx as [Hx _]. exact Hx.
    + rewrite HP. cbn. lia.
  - rewrite shl_defined by (rewrite HP; cbn; lia). rewrite HP.
    rewrite (static_cast_id T b) by (unfold in_range; lia). reflexivity.
  - apply int_sum_in_range; [|exact Hbyte|lia].
    pose proof (static_cast_in_range T (little_endian_sum (take k bytes))) as Hr.
    unfold in_range in Hr. lia.
Qed.

Lemma getInteger_n_keeps_low_bits_witness :
  getInteger_n uint16_t (length [0x01; 0x02; 0x03; 0xFF]) (front [0x01; 0x02; 0x03; 0xFF])
    = Ok (little_endian_sum [0x01; 0x02; 0x03; 0xFF] mod modulus uint16_t)
  ∧ (∀ k b, [0x01; 0x02; 0x03; 0xFF] !! k = Some b →
       ∃ r s, getInteger_n uint16_t k (front [0x01; 0x02; 0x03; 0xFF]) = Ok r
         ∧ shl uint16_t (static_cast uint16_t b) (8 * Z.of_nat k) = Ok s
         ∧ in_range int32_t (r + s)).
Proof.
  apply (getInteger_n_keeps_low_bits uint16_t [0x01; 0x02; 0x03; 0xFF]);
    [reflexivity|cbn; lia|cbn; lia|repeat constructor; lia].
Defined.

(** ** ByteArray: extraction and splitting agree *)

(** X15. Extracting a [uint8_t] at byte offset [i] from an integer gives byte
    [i] of its native split, for a negative value as for any other. *)
Theorem getInteger_value_is_split_byte (Tval : itype) (i : nat) (v : Z) :
  (i < sizeof Tval)%nat →
  ∃ bytes b, byteArray Tval true v = Ok bytes
    ∧ getInteger_value (Integral uint8_t) (Integral Tval) i v = Ok b
    ∧ bytes !! i = Some b.
Proof.
  intros Hi. exists (object_representation Tval v), (byte_of v i).
  split; [apply byteArray_native|]. split.
  - unfold getInteger_value.
    destruct (Nat.leb_spec i (sizeof Tval)); [|lia].
    rewrite shr_defined.
    + cbn [mbind result_bind]. rewrite Z.shiftr_div_pow2 by lia.
      rewrite byte_of_div_mod. reflexivity.
    + pose proof (sizeof_promote Tval). unfold bit_width. lia.
  - apply lookup_object_representation, Hi.
Qed.

Lemma getInteger_value_is_split_byte_witness :
  ∃ bytes b, byteArray int32_t true (-2) = Ok bytes
    ∧ getInteger_value (Integral uint8_t) (Integral int32_t) 3 (-2) = Ok b
    ∧ bytes !! 3%nat = Some b.
Proof. apply (getInteger_value_is_split_byte int32_t 3 (-2)). cbn. lia. Defined.

(** X16. At offset 0 [getInteger<T, Tval>(value)] is a plain conversion: a
    value that fits [T] comes back unchanged. *)
Theorem getInteger_value_offset_zero (T Tval : itype) (v : Z) :
  in_range Tval v → in_range T v →
  getInteger_value (Integral T) (Integral Tval) 0 v = Ok v.
Proof.
  intros _ Hv. unfold getInteger_value. cbn [Nat.leb].
  rewrite shr_defined
    by (pose proof (sizeof_promote Tval); pose proof (sizeof_pos Tval);
        unfold bit_width; lia).
  cbn [mbind result_bind]. rewrite Z.shiftr_0_r, static_cast_id by exact Hv.
  reflexivity.
Qed.

Lemma getInteger_value_offset_zero_witness :
  getInteger_value (Integral int64_t) (Integral int8_t) 0 (-3) = Ok (-3).
Proof. apply (getInteger_value_offset_zero int64_t int8_t (-3)); literal_in_range. Defined.

(** ** The frame: checksum, layout and decoding *)

Lemma getInteger_n_prefix (T : itype) (bytes rest : list Z) :
  (length bytes ≤ sizeof (promote T))%nat →
  getInteger_n T (length bytes) (bytes ++ rest)
  = Ok (static_cast T (little_endian_sum bytes)).
Proof.
  intros Hlen. unfold getInteger_n. apply getInteger_idx_sum; [|exact Hlen].
  intros i b Hb. apply subscript_array, lookup_app_l_Some, Hb.
Qed.

Lemma CRC16_first_two (b0 b1 : Z) (rest : list Z) :
  0 ≤ b0 < 256 → 0 ≤ b1 < 256 →
  CRC16 (b0 :: b1 :: rest) = Ok ((b0 + 256 * b1 + 0x4E) mod 65536).
Proof.
  intros H0 H1. unfold CRC16.
  pose proof (getInteger_n_prefix uint16_t [b0; b1] rest) as Hread.
  cbn [length app] in Hread. rewrite Hread by (cbn; lia).
  cbn [mbind result_bind].
  rewrite static_cast_little_endian_sum by (repeat constructor; cbn; lia).
  rewrite !little_endian_sum_cons. change (little_endian_sum []) with 0.
  unfold static_cast. cbn [is_signed uint16_t].
  change (modulus uint16_t) with 65536. f_equal. f_equal. lia.
Qed.

(** X17. The checksum is the 16-bit little-endian reading of the first two
    bytes plus [0x4E], wrapping around at [2^16]; the bytes after the
    second never enter it, so two payloads that agree on their first two
    bytes carry the same checksum. *)
Theorem CRC16_reads_two_bytes (b0 b1 : Z) (rest rest' : list Z) :
  0 ≤ b0 < 256 → 0 ≤ b1 < 256 →
  CRC16 (b0 :: b1 :: rest) = Ok ((b0 + 256 * b1 + 0x4E) mod 65536)
  ∧ CRC16 (b0 :: b1 :: rest) = CRC16 (b0 :: b1 :: rest').
Proof.
  intros H0 H1. rewrite !CRC16_first_two by assumption. split; reflexivity.
Qed.

Lemma CRC16_reads_two_bytes_witness :
  CRC16 (0xFF :: 0xFF :: [1; 2; 3; 4; 5; 6])
    = Ok ((0xFF + 256 * 0xFF + 0x4E) mod 65536)
  ∧ CRC16 (0xFF :: 0xFF :: [1; 2; 3; 4; 5; 6]) = CRC16 (0xFF :: 0xFF :: [0; 0; 0; 0; 0; 0]).
Proof.
  apply (CRC16_reads_two_bytes 0xFF 0xFF [1; 2; 3; 4; 5; 6] [0; 0; 0; 0; 0; 0]); lia.
Defined.

Lemma BasicHeader_serialize_bytes (a c : Z) :
  0 ≤ a < 256 → 0 ≤ c < 256 →
  BasicHeader_serialize {| address := a; control := c |} = Ok [0xFE; a; c].
Proof.
  intros Ha Hc. unfold BasicHeader_serialize. cbn [address control].
  pose proof (byteArray3_scalars uint8_t uint8_t uint8_t header_flag a c) as H.
  rewrite H. rewrite !object_representation_uint8 by (unfold header_flag; lia).
  reflexivity.
Qed.

Lemma object_representation_uint16 (v : Z) :
  0 ≤ v < 65536 → object_representation uint16_t v = [v mod 256; v / 256].
Proof.
  intros Hv. unfold object_representation. cbn [sizeof uint16_t int_width seq fmap list_fmap].
  rewrite !byte_of_div_mod. cbn [Z.of_nat Z.mul Pos.of_succ_nat Pos.succ].
  change (2 ^ 0) with 1. change (2 ^ 8) with 256.
  rewrite Z.div_1_r. f_equal. f_equal.
  apply Z.mod_small. split; [apply Z.div_pos; lia|].
  apply Z.div_lt_upper_bound; lia.
Qed.

Lemma serialize_layout (a c b0 b1 : Z) (rest : list Z) :
  0 ≤ a < 256 → 0 ≤ c < 256 → 0 ≤ b0 < 256 → 0 ≤ b1 < 256 →
  ∃ frame,
    HDLCFrame_of {| address := a; control := c |} {| info := b0 :: b1 :: rest |} = Ok frame
    ∧ fcs (footer frame) = (b0 + 256 * b1 + 0x4E) mod 65536
    ∧ serialize frame
      = Ok ([0xFE; a; c] ++ (b0 :: b1 :: rest)
            ++ object_representation uint16_t (fcs (footer frame)) ++ [0xFE]).
Proof.
  intros Ha Hc H0 H1. unfold HDLCFrame_of, BasicFooter_of. cbn [info].
  rewrite CRC16_first_two by assumption. cbn [mbind result_bind].
  eexists. split; [reflexivity|]. cbn [footer fcs]. split; [reflexivity|].
  unfold serialize. cbn [header data footer].
  rewrite BasicHeader_serialize_bytes by assumption.
  unfold BasicData_serialize, BasicFooter_serialize. cbn [mbind result_bind info fcs].
  rewrite byteArray2_scalars. cbn [mbind result_bind].
  rewrite merge_concat.
  rewrite (object_representation_uint8 footer_flag) by (unfold footer_flag; lia).
  cbn [concat]. rewrite app_nil_r. reflexivity.
Qed.

(** X18. The layout of every frame: for an address, a control byte and eight
    payload bytes, [serialize] returns the flag [0xFE], the address, the
    control byte, the payload unchanged, the checksum low byte first and
    the flag [0xFE] again, 14 bytes in all. *)
Theorem frame_layout (a c : Z) (payload : list Z) :
  0 ≤ a < 256 → 0 ≤ c < 256 →
  length payload = 8%nat → Forall (λ b, 0 ≤ b < 256) payload →
  ∃ frame bytes checksum,
    HDLCFrame_of {| address := a; control := c |} {| info := payload |} = Ok frame
    ∧ CRC16 payload = Ok checksum
    ∧ fcs (footer frame) = checksum
    ∧ serialize frame = Ok bytes
    ∧ bytes = [0xFE; a; c] ++ payload ++ [checksum mod 256; checksum / 256; 0xFE]
    ∧ length bytes = 14%nat.
Proof.
  intros Ha Hc Hlen Hb.
  destruct payload as [|b0 [|b1 rest]]; [discriminate..|].
  apply Forall_cons in Hb as [H0 Hb]. apply Forall_cons in Hb as [H1 _].
  destruct (serialize_layout a c b0 b1 rest Ha Hc H0 H1) as (frame & Hframe & Hfcs & Hser).
  exists frame. eexists. exists (fcs (footer frame)).
  split; [exact Hframe|].
  split; [rewrite Hfcs; apply CRC16_first_two; assumption|].
  split; [reflexivity|]. split; [exact Hser|].
  assert (Hrange : 0 ≤ fcs (footer frame) < 65536)
    by (rewrite Hfcs; apply Z.mod_pos_bound; lia).
  rewrite object_representation_uint16 by exact Hrange.
  split; [reflexivity|].
  rewrite !length_app, Hlen. reflexivity.
Qed.

Lemma frame_layout_witness :
  ∃ frame bytes checksum,
    HDLCFrame_of {| address := 0x10; control := 0x20 |}
                 {| info := [0xFF; 0xFF; 1; 2; 3; 4; 5; 6] |} = Ok frame
    ∧ CRC16 [0xFF; 0xFF; 1; 2; 3; 4; 5; 6] = Ok checksum
    ∧ fcs (footer frame) = checksum
    ∧ serialize frame = Ok bytes
    ∧ bytes = [0xFE; 0x10; 0x20] ++ [0xFF; 0xFF; 1; 2; 3; 4; 5; 6]
              ++ [checksum mod 256; checksum / 256; 0xFE]
    ∧ length bytes = 14%nat.
Proof.
  apply (frame_layout 0x10 0x20 [0xFF; 0xFF; 1; 2; 3; 4; 5; 6]);
    [lia|lia|reflexivity|repeat constructor; lia].
Defined.

Lemma getInteger_n_byte_at (obj : list Z) (pos : nat) (b : Z) :
  obj !! pos = Some b → 0 ≤ b < 256 →
  getInteger_n uint8_t 1 (Pointer obj pos) = Ok b.
Proof.
  intros Hb Hr. pose proof (getInteger_n_at uint8_t obj [b] pos) as Hread.
  cbn [length] in Hread. rewrite Hread.
  - rewrite static_cast_little_endian_sum by (repeat constructor; cbn; lia).
    rewrite little_endian_sum_cons. change (little_endian_sum []) with 0.
    f_equal. lia.
  - intros [|j] x Hx; [|discriminate]. injection Hx as <-.
    rewrite Nat.add_0_r. exact Hb.
  - cbn. lia.
Qed.

(** X19. Decoding a serialised frame by position gives its fields back: the
    flags at places 0 and 13, the address and the control byte at 1 and
    2, the payload at 3 to 10 and the checksum, read as a little-endian
    [uint16_t] at 11; the checksum computed again over the payload read
    back equals the one stored. *)
Theorem frame_decode (a c : Z) (payload : list Z) :
  0 ≤ a < 256 → 0 ≤ c < 256 →
  length payload = 8%nat → Forall (λ b, 0 ≤ b < 256) payload →
  ∃ frame bytes,
    HDLCFrame_of {| address := a; control := c |} {| info := payload |} = Ok frame
    ∧ serialize frame = Ok bytes
    ∧ bytes !! 0%nat = Some 0xFE
    ∧ getInteger_n uint8_t 1 (Pointer bytes 1) = Ok a
    ∧ getInteger_n uint8_t 1 (Pointer bytes 2) = Ok c
    ∧ RangedArray.array_n (NumericLimits0 := limits uint8_t) 8 (Pointer bytes 3) = Ok payload
    ∧ getInteger_n uint16_t 2 (Pointer bytes 11) = Ok (fcs (footer frame))
    ∧ bytes !! 13%nat = Some 0xFE
    ∧ (p ← RangedArray.array_n (NumericLimits0 := limits uint8_t) 8 (Pointer bytes 3);
       CRC16 p) = Ok (fcs (footer frame)).
Proof.
  intros Ha Hc Hlen Hb.
  destruct payload as [|p0 [|p1 [|p2 [|p3 [|p4 [|p5 [|p6 [|p7 [|]]]]]]]]];
    try discriminate.
  pose proof Hb as Hall.
  apply Forall_cons in Hb as [H0 Hb]. apply Forall_cons in Hb as [H1 _].
  destruct (serialize_layout a c p0 p1 [p2; p3; p4; p5; p6; p7] Ha Hc H0 H1)
    as (frame & Hframe & Hfcs & Hser).
  assert (Hrange : in_range uint16_t (fcs (footer frame))).
  { rewrite Hfcs. unfold in_range. change (min_value uint16_t) with 0.
    change (max_value uint16_t) with 65535.
    pose proof (Z.mod_pos_bound (p0 + 256 * p1 + 0x4E) 65536). lia. }
  set (checksum := fcs (footer frame)) in *.
  assert (Hpayload : RangedArray.array_n (NumericLimits0 := limits uint8_t) 8
            (Pointer ([0xFE; a; c] ++ [p0; p1; p2; p3; p4; p5; p6; p7]
                      ++ object_representation uint16_t checksum ++ [0xFE]) 3)
          = Ok [p0; p1; p2; p3; p4; p5; p6; p7]).
  { rewrite array_n_pointer; [reflexivity|].
    rewrite !length_app, length_object_representation. cbn. lia. }
  exists frame. eexists.
  split; [exact Hframe|]. split; [exact Hser|].
  split; [reflexivity|].
  split; [apply getInteger_n_byte_at; [reflexivity|exact Ha]|].
  split; [apply getInteger_n_byte_at; [reflexivity|exact Hc]|].
  split; [exact Hpayload|].
  split.
  { pose proof (getInteger_n_at uint16_t
      ([0xFE; a; c] ++ [p0; p1; p2; p3; p4; p5; p6; p7]
       ++ object_representation uint16_t checksum ++ [0xFE])
      (object_representation uint16_t checksum) 11) as Hread.
    rewrite length_object_representation in Hread.
    change (sizeof uint16_t) with 2%nat in Hread. rewrite Hread.
    - rewrite assemble_object_representation by exact Hrange. reflexivity.
    - intros j b Hj. change (11 + j)%nat with (S (S (S (S (S (S (S (S (S (S (S j))))))))))).
      cbn [app lookup list_lookup]. apply lookup_app_l_Some. exact Hj.
    - cbn. lia. }
  split; [reflexivity|].
  rewrite Hpayload. cbn [mbind result_bind].
  rewrite CRC16_first_two by assumption. f_equal. symmetry. exact Hfcs.
Qed.

Lemma frame_decode_witness :
  ∃ frame bytes,
    HDLCFrame_of {| address := 0xCE; control := 0x01 |}
                 {| info := [0xDE; 0xAD; 0xBE; 0xEF; 0xFA; 0xCE; 0xB0; 0xA7] |} = Ok frame
    ∧ serialize frame = Ok bytes
    ∧ bytes !! 0%nat = Some 0xFE
    ∧ getInteger_n uint8_t 1 (Pointer bytes 1) = Ok 0xCE
    ∧ getInteger_n uint8_t 1 (Pointer bytes 2) = Ok 0x01
    ∧ RangedArray.array_n (NumericLimits0 := limits uint8_t) 8 (Pointer bytes 3)
      = Ok [0xDE; 0xAD; 0xBE; 0xEF; 0xFA; 0xCE; 0xB0; 0xA7]
    ∧ getInteger_n uint16_t 2 (Pointer bytes 11) = Ok (fcs (footer frame))
    ∧ bytes !! 13%nat = Some 0xFE
    ∧ (p ← RangedArray.array_n (NumericLimits0 := limits uint8_t) 8 (Pointer bytes 3);
       CRC16 p) = Ok (fcs (footer frame)).
Proof.
  apply (frame_decode 0xCE 0x01 [0xDE; 0xAD; 0xBE; 0xEF; 0xFA; 0xCE; 0xB0; 0xA7]);
    [lia|lia|reflexivity|repeat constructor; lia].
Defined.

(** X20. [BasicData::operator T()] reads the first [sizeof(T)] payload bytes
    as a [T]: a payload that starts with the native bytes of a value
    converts back to that value, a 64-bit value filling all eight bytes. *)
Theorem BasicData_convert_reads_value (T : itype) (v : Z) (rest : list Z) :
  in_range T v →
  BasicData_convert T {| info := object_representation T v ++ rest |} = Ok v.
Proof.
  intros Hv. unfold BasicData_convert. cbn [info].
  rewrite <- (length_object_representation T v) at 1.
  rewrite getInteger_n_prefix.
  - rewrite assemble_object_representation by exact Hv. reflexivity.
  - rewrite length_object_representation. apply sizeof_promote.
Qed.

Lemma BasicData_convert_reads_value_witness :
  BasicData_convert uint64_t
    {| info := object_representation uint64_t 0xA7B0CEFAEFBEADDE ++ [] |}
  = Ok 0xA7B0CEFAEFBEADDE.
Proof.
  apply (BasicData_convert_reads_value uint64_t 0xA7B0CEFAEFBEADDE []).
  literal_in_range.
Defined.
